(** * passkey: rolling HMAC authentication codes

    A shallow embedding of [passkey.go] (package [passkey]) together with the
    parts of the Go standard library it calls: [encoding/binary] little-endian
    words, [crypto/sha1] and [crypto/hmac], [encoding/base32] with the standard
    alphabet, and the [time] operations [Add], [Round] and [Unix].

    Conventions.
    - A Go [byte] is a [Z] in [0, 256); a [uint64] is a [Z] in [0, 2^64); a
      [time.Duration] is a signed 64-bit count of nanoseconds.
    - A Go [string] is a [String.string]; every character is one byte.
    - A [time.Time] is the instant in nanoseconds since the Unix epoch.
    - Code that may panic returns [option]; [None] is the panic.
    - Readings of the clock and of the random source are explicit arguments. *)

From Stdlib Require Import ZArith List String Ascii Bool Lia.
Import ListNotations.
Local Open Scope Z_scope.

(* ================================================================== *)
(** ** Machine integers *)

Definition u8 (x : Z) : Z := Z.land x 0xFF.
Definition u32 (x : Z) : Z := Z.land x 0xFFFFFFFF.
Definition u64 (x : Z) : Z := x mod 2 ^ 64.

(** Conversion of a mathematical integer to Go's [int64] (two's complement). *)
Definition i64 (x : Z) : Z := (x + 2 ^ 63) mod 2 ^ 64 - 2 ^ 63.

Definition is_byte (b : Z) : Prop := 0 <= b < 256.

(** [s[lo:hi]] on a slice whose capacity equals its length. *)
Definition slice {A} (s : list A) (lo hi : Z) : option (list A) :=
  if (0 <=? lo) && (lo <=? hi) && (hi <=? Z.of_nat (List.length s))
  then Some (firstn (Z.to_nat (hi - lo)) (skipn (Z.to_nat lo) s))
  else None.

(** [copy(dst, src)]: the first [min (len dst) (len src)] elements of [dst]
    are overwritten. *)
Definition copy {A} (dst src : list A) : list A :=
  firstn (List.length dst) src ++ skipn (List.length src) dst.

Definition bytes_of_string (s : string) : list Z :=
  map (fun c => Z.of_N (N_of_ascii c)) (list_ascii_of_string s).

Definition string_of_bytes (b : list Z) : string :=
  string_of_list_ascii (map (fun x => ascii_of_N (Z.to_N x)) b).

(** [len(s)] of a Go string. *)
Definition len (s : string) : Z := Z.of_nat (String.length s).

(* ================================================================== *)
(** ** encoding/binary: little-endian 64-bit words *)

Module LittleEndian.

(** [binary.LittleEndian.PutUint64(b[:], v)] on an 8-byte destination. *)
Definition PutUint64 (v : Z) : list Z :=
  [ u8 v; u8 (Z.shiftr v 8); u8 (Z.shiftr v 16); u8 (Z.shiftr v 24);
    u8 (Z.shiftr v 32); u8 (Z.shiftr v 40); u8 (Z.shiftr v 48);
    u8 (Z.shiftr v 56) ].

(** [binary.LittleEndian.Uint64(b)]; the bounds check [_ = b[7]] panics on a
    slice shorter than 8 bytes. *)
Definition Uint64 (b : list Z) : option Z :=
  match b with
  | b0 :: b1 :: b2 :: b3 :: b4 :: b5 :: b6 :: b7 :: _ =>
      Some (Z.lor b0 (Z.lor (Z.shiftl b1 8) (Z.lor (Z.shiftl b2 16)
           (Z.lor (Z.shiftl b3 24) (Z.lor (Z.shiftl b4 32)
           (Z.lor (Z.shiftl b5 40) (Z.lor (Z.shiftl b6 48)
                  (Z.shiftl b7 56))))))))
  | _ => None
  end.

End LittleEndian.

(* ================================================================== *)
(** ** crypto/sha1 (FIPS 180-4) *)

Module SHA1.

Definition chunk : nat := 64.

Definition rotl (x n : Z) : Z :=
  u32 (Z.lor (Z.shiftl x n) (Z.shiftr x (32 - n))).

Definition not32 (x : Z) : Z := Z.lxor x 0xFFFFFFFF.

(** The five chaining words. *)
Definition state : Type := (Z * Z * Z * Z * Z)%type.

Definition init : state :=
  (0x67452301, 0xEFCDAB89, 0x98BADCFE, 0x10325476, 0xC3D2E1F0).

Definition be32 (b0 b1 b2 b3 : Z) : Z :=
  Z.lor (Z.shiftl b0 24) (Z.lor (Z.shiftl b1 16) (Z.lor (Z.shiftl b2 8) b3)).

(** The sixteen big-endian words of one chunk. *)
Fixpoint words (n : nat) (p : list Z) : list Z :=
  match n, p with
  | S n', b0 :: b1 :: b2 :: b3 :: p' => be32 b0 b1 b2 b3 :: words n' p'
  | _, _ => []
  end.

(** Message schedule: [w] holds the last sixteen words, oldest first. *)
Fixpoint schedule (n : nat) (w : list Z) : list Z :=
  match n with
  | O => []
  | S n' =>
      let x := rotl (Z.lxor (Z.lxor (Z.lxor (nth 13 w 0) (nth 8 w 0))
                                    (nth 2 w 0)) (nth 0 w 0)) 1 in
      x :: schedule n' (tl w ++ [x])
  end.

Definition f (i : nat) (b c d : Z) : Z :=
  if (i <? 20)%nat then Z.lor (Z.land b c) (Z.land (not32 b) d)
  else if (i <? 40)%nat then Z.lxor (Z.lxor b c) d
  else if (i <? 60)%nat then Z.lor (Z.land (Z.lor b c) d) (Z.land b c)
  else Z.lxor (Z.lxor b c) d.

Definition K (i : nat) : Z :=
  if (i <? 20)%nat then 0x5A827999
  else if (i <? 40)%nat then 0x6ED9EBA1
  else if (i <? 60)%nat then 0x8F1BBCDC
  else 0xCA62C1D6.

Fixpoint rounds (i : nat) (ws : list Z) (s : state) : state :=
  match ws with
  | [] => s
  | w :: ws' =>
      let '(a, b, c, d, e) := s in
      let t := u32 (rotl a 5 + f i b c d + e + w + K i) in
      rounds (S i) ws' (t, a, rotl b 30, c, d)
  end.

(** [blockGeneric] on one chunk. *)
Definition block (h : state) (p : list Z) : state :=
  let w := words 16 p in
  let '(h0, h1, h2, h3, h4) := h in
  let '(a, b, c, d, e) := rounds 0 (w ++ schedule 64 w) h in
  (u32 (h0 + a), u32 (h1 + b), u32 (h2 + c), u32 (h3 + d), u32 (h4 + e)).

Fixpoint blocks (n : nat) (h : state) (p : list Z) : state :=
  match n with
  | O => h
  | S n' => blocks n' (block h (firstn chunk p)) (skipn chunk p)
  end.

Definition be_bytes32 (x : Z) : list Z :=
  [ u8 (Z.shiftr x 24); u8 (Z.shiftr x 16); u8 (Z.shiftr x 8); u8 x ].

Definition be_bytes64 (x : Z) : list Z :=
  be_bytes32 (Z.shiftr x 32) ++ be_bytes32 x.

(** Padding of [checkSum]: 0x80, zeros up to 56 mod 64, the bit length. *)
Definition pad (msg : list Z) : list Z :=
  let n := Z.of_nat (List.length msg) in
  msg ++ [0x80] ++ repeat 0 (Z.to_nat ((55 - n) mod 64))
      ++ be_bytes64 (u64 (n * 8)).

(** [sha1.Sum]: always 20 bytes. *)
Definition Sum (msg : list Z) : list Z :=
  let p := pad msg in
  let '(h0, h1, h2, h3, h4) := blocks (List.length p / chunk) init p in
  be_bytes32 h0 ++ be_bytes32 h1 ++ be_bytes32 h2 ++ be_bytes32 h3
    ++ be_bytes32 h4.

End SHA1.

(* ================================================================== *)
(** ** crypto/hmac over SHA-1 (RFC 2104) *)

Module HMAC.

(** [hmac.New(sha1.New, key)]: a key longer than the block is hashed first,
    then padded with zeros to the block size. *)
Definition block_key (key : list Z) : list Z :=
  let k := if (SHA1.chunk <? List.length key)%nat then SHA1.Sum key else key in
  k ++ repeat 0 (SHA1.chunk - List.length k)%nat.

(** [h := hmac.New(sha1.New, key); h.Write(msg); h.Sum(nil)]. *)
Definition Sum (key msg : list Z) : list Z :=
  let k := block_key key in
  let ipad := map (fun b => Z.lxor b 0x36) k in
  let opad := map (fun b => Z.lxor b 0x5c) k in
  SHA1.Sum (opad ++ SHA1.Sum (ipad ++ msg)).

End HMAC.

(* ================================================================== *)
(** ** encoding/base32, [StdEncoding] (RFC 4648, padding character '=') *)

Module Base32.

Definition encodeStd : string := "ABCDEFGHIJKLMNOPQRSTUVWXYZ234567".

Definition padChar : Z := 61.

(** [enc.encode[i]]: the character of a five-bit value. *)
Definition encode (i : Z) : Z :=
  nth (Z.to_nat i) (bytes_of_string encodeStd) 0.

Fixpoint index_of (c : Z) (l : list Z) (i : Z) : Z :=
  match l with
  | [] => 0xFF
  | x :: l' => if x =? c then i else index_of c l' (i + 1)
  end.

(** [enc.decodeMap[c]]: 0xFF marks a byte outside the alphabet. *)
Definition decodeMap (c : Z) : Z := index_of c (bytes_of_string encodeStd) 0.

(** The eight five-bit values of a quantum of up to five source bytes; a
    missing byte contributes nothing. *)
Definition unpack (src : list Z) : list Z :=
  let s k := nth k src 0 in
  [ Z.shiftr (s 0%nat) 3;
    Z.lor (Z.land (Z.shiftl (s 0%nat) 2) 0x1F) (Z.land (Z.shiftr (s 1%nat) 6) 0x1F);
    Z.land (Z.shiftr (s 1%nat) 1) 0x1F;
    Z.lor (Z.land (Z.shiftl (s 1%nat) 4) 0x1F) (Z.land (Z.shiftr (s 2%nat) 4) 0x1F);
    Z.lor (Z.land (Z.shiftl (s 2%nat) 1) 0x1F) (Z.shiftr (s 3%nat) 7);
    Z.land (Z.shiftr (s 3%nat) 2) 0x1F;
    Z.lor (Z.land (Z.shiftl (s 3%nat) 3) 0x1F) (Z.shiftr (s 4%nat) 5);
    Z.land (s 4%nat) 0x1F ].

Definition quantum (src : list Z) : list Z :=
  map (fun v => encode (Z.land v 31)) (unpack src).

(** Characters of the final quantum that carry data, by source bytes left. *)
Definition keep (n : nat) : nat :=
  match n with
  | 1 => 2 | 2 => 4 | 3 => 5 | 4 => 7 | _ => 8
  end%nat.

(** [enc.Encode]. *)
Fixpoint Encode (src : list Z) : list Z :=
  match src with
  | [] => []
  | b0 :: b1 :: b2 :: b3 :: b4 :: rest =>
      quantum [b0; b1; b2; b3; b4] ++ Encode rest
  | _ =>
      let n := List.length src in
      firstn (keep n) (quantum src) ++ repeat padChar (8 - keep n)
  end.

Definition EncodeToString (src : list Z) : string :=
  string_of_bytes (Encode src).

(** Carriage returns and line feeds are dropped before decoding. *)
Definition stripNewlines (src : list Z) : list Z :=
  filter (fun c => negb ((c =? 13) || (c =? 10))) src.

(** Packing of [dlen] five-bit values into bytes; the entries of [dbuf]
    from [dlen] on are zero. *)
Definition pack (dlen : nat) (dbuf : list Z) : list Z :=
  let d k := nth k dbuf 0 in
  firstn (match dlen with
          | 8 => 5 | 7 => 4 | 5 => 3 | 4 => 2 | 2 => 1 | _ => 0
          end)%nat
    [ u8 (Z.lor (Z.shiftl (d 0%nat) 3) (Z.shiftr (d 1%nat) 2));
      u8 (Z.lor (Z.shiftl (d 1%nat) 6)
                (Z.lor (Z.shiftl (d 2%nat) 1) (Z.shiftr (d 3%nat) 4)));
      u8 (Z.lor (Z.shiftl (d 3%nat) 4) (Z.shiftr (d 4%nat) 1));
      u8 (Z.lor (Z.shiftl (d 4%nat) 7)
                (Z.lor (Z.shiftl (d 5%nat) 2) (Z.shiftr (d 6%nat) 3)));
      u8 (Z.lor (Z.shiftl (d 6%nat) 5) (d 7%nat)) ].

(** [enc.decode]: [j] characters of the current quantum are already in
    [dbuf].  [None] is a [CorruptInputError]. *)
Fixpoint decode (src : list Z) (j : nat) (dbuf : list Z) : option (list Z) :=
  match src with
  | [] =>
      match j with
      | O => Some []
      | _ => None (* the input ended inside a quantum: missing padding *)
      end
  | c :: src' =>
      if (c =? padChar) && (2 <=? j)%nat && (List.length src' <? 8)%nat then
        if (List.length src' + j <? 7)%nat then None (* not enough padding *)
        else if negb (forallb (fun x => x =? padChar) (firstn (7 - j) src'))
        then None (* incorrect padding *)
        else if (j =? 3)%nat || (j =? 6)%nat then None
        else Some (pack j dbuf)
      else
        let v := decodeMap c in
        if v =? 0xFF then None
        else
          match j with
          | 7%nat =>
              match decode src' 0 [] with
              | Some rest => Some (pack 8 (dbuf ++ [v]) ++ rest)
              | None => None
              end
          | _ => decode src' (S j) (dbuf ++ [v])
          end
  end.

Definition DecodeString (s : string) : option (list Z) :=
  decode (stripNewlines (bytes_of_string s)) 0 [].

End Base32.

(* ================================================================== *)
(** ** time *)

Module GoTime.

Definition Second : Z := 1000000000.
Definition Minute : Z := 60 * Second.

(** Seconds from January 1 of year 1, the zero [Time], to the Unix epoch. *)
Definition unixToInternal : Z := (1969 * 365 + 1969 / 4 - 1969 / 100 + 1969 / 400) * 86400.

(** [t.Add(d)]. *)
Definition Add (t d : Z) : Z := t + d.

(** [t.Round(d)]: the nearest multiple of [d] since the zero time, halfway
    values rounding up; [t] itself when [d <= 0]. *)
Definition Round (t d : Z) : Z :=
  if d <=? 0 then t
  else
    let r := (t + unixToInternal * Second) mod d in
    if r + r <? d then Add t (- r) else Add t (d - r).

(** [t.Unix()]: whole seconds since the epoch. *)
Definition Unix (t : Z) : Z := t / Second.

End GoTime.

(* ================================================================== *)
(** ** PassKey *)

Notation "x <- e ;; k" :=
  (match e with Some x => k | None => None end)
  (at level 61, e at next level, right associativity).

(** [[3]atomic.Uint64]: three cells; a dynamic index outside [0, 3) panics. *)
Record Array3 : Type := mkArray3 { cell0 : Z; cell1 : Z; cell2 : Z }.

Definition Load (a : Array3) (i : Z) : option Z :=
  match i with
  | 0 => Some (cell0 a)
  | 1 => Some (cell1 a)
  | 2 => Some (cell2 a)
  | _ => None
  end.

Definition Store (a : Array3) (i v : Z) : option Array3 :=
  match i with
  | 0 => Some (mkArray3 v (cell1 a) (cell2 a))
  | 1 => Some (mkArray3 (cell0 a) v (cell2 a))
  | 2 => Some (mkArray3 (cell0 a) (cell1 a) v)
  | _ => None
  end.

Record PassKey : Type := mkPassKey {
  interval : Z;       (* time.Duration; defaults to one minute *)
  secret : list Z;    (* [20]byte *)
  cnp : Array3        (* 0: current, 1: next, 2: previous *)
}.

(** The zero value of the struct. *)
Definition zeroPassKey : PassKey :=
  mkPassKey 0 (repeat 0 20) (mkArray3 0 0 0).

Definition with_cnp (pk : PassKey) (a : Array3) : PassKey :=
  mkPassKey (interval pk) (secret pk) a.

Definition with_secret (pk : PassKey) (s : list Z) : PassKey :=
  mkPassKey (interval pk) s (cnp pk).

(** [pk.Interval(interval)]; [None] is the nil pointer. *)
Definition Interval (pk : PassKey) (i : option Z) : PassKey :=
  let v := match i with
           | None => GoTime.Minute
           | Some x => if x =? 0 then GoTime.Minute else x
           end in
  mkPassKey v (secret pk) (cnp pk).

(** The dynamic type of the argument of [Secret]. *)
Inductive SecretArg : Type :=
| SecretString (v : string)
| SecretBytes (v : list Z)      (* [20]byte *)
| SecretOther.                  (* a value of any other type *)

(** What [Secret] returns: its receiver, or nil. *)
Inductive Returned : Type := Receiver | Nil.

(** [pk.Secret(secret)]: the receiver after the call and the pointer
    returned. *)
Definition Secret (pk : PassKey) (a : SecretArg) : PassKey * Returned :=
  match a with
  | SecretString v =>
      if len v =? 32 then
        match Base32.DecodeString v with
        | None => (pk, Nil)
        | Some b =>
            if negb (len v =? 32) then (pk, Nil)
            else (with_secret pk (copy (secret pk) b), Receiver)
        end
      else (pk, Receiver)
  | SecretBytes v => (with_secret pk (copy (secret pk) v), Receiver)
  | SecretOther => (pk, Receiver)
  end.

(** The Unix time hashed by [generate(i)] when the clock reads [now]. *)
Definition bucket (d : Z) (i now : Z) : Z :=
  u64 (GoTime.Unix
         (GoTime.Round (GoTime.Add now (i64 (i64 (i - 1) * d))) d)).

(** The start index chosen from the last nibble of the hash, in [byte]
    arithmetic. *)
Definition nibble (h19 : Z) : Z := u8 (Z.land h19 0xf / 2 + 1).

(** The 64-bit code cut out of a hash. *)
Definition truncate (hash : list Z) : option Z :=
  h19 <- nth_error hash 19 ;;
  let n := nibble h19 in
  s <- slice hash n (u8 (n + 8)) ;;
  LittleEndian.Uint64 s.

(** The code [generate(i)] computes from the secret [key], the interval [d]
    and the clock reading [now]. *)
Definition derive (key : list Z) (d : Z) (i now : Z) : option Z :=
  let bs := LittleEndian.PutUint64 (bucket d i now) in
  truncate (HMAC.Sum key bs).

(** [pk.generate(i)] with the clock reading [now]. *)
Definition generate (pk : PassKey) (i now : Z) : option PassKey :=
  code <- derive (secret pk) (interval pk) i now ;;
  a <- Store (cnp pk) i code ;;
  Some (with_cnp pk a).

Definition zero20 : list Z := repeat 0 20.

Definition bytes_eqb (a b : list Z) : bool :=
  if list_eq_dec Z.eq_dec a b then true else false.

(** The part of [Start] and [Current] that replaces an all-zero secret by
    the bytes [rnd] read from the random source. *)
Definition failover (pk : PassKey) (rnd : list Z) : PassKey :=
  if bytes_eqb (firstn 20 (secret pk)) zero20
  then with_secret pk (copy (secret pk) rnd)
  else pk.

(** [pk.Start(ctx)] up to the launch of the ticker goroutine.  [rnd] is what
    [rand.Read] delivers, [t0] and [t1] are the two readings of the clock.
    The result is the receiver and the lines written to standard output.
    [time.NewTicker] panics on a non-positive interval. *)
Definition Start (pk : PassKey) (rnd : list Z) (t0 t1 : Z)
  : option (PassKey * list string) :=
  let pk1 := if interval pk =? 0 then Interval pk None else pk in
  let pk2 := failover pk1 rnd in
  let out := if bytes_eqb (firstn 20 (secret pk1)) zero20
             then [Base32.EncodeToString (secret pk2)] else [] in
  pk3 <- generate pk2 0 t0 ;;
  pk4 <- generate pk3 1 t1 ;;
  if interval pk4 <=? 0 then None else Some (pk4, out).

(** One firing of the ticker: the body of [case <-ticker.C]. *)
Definition tick (pk : PassKey) (now : Z) : option PassKey :=
  c <- Load (cnp pk) 0 ;;
  a <- Store (cnp pk) 2 c ;;      (* current -> previous *)
  n <- Load a 1 ;;
  a' <- Store a 0 n ;;            (* next -> current *)
  generate (with_cnp pk a') 1 now.  (* next *)

(** The slots by the role the code gives them. *)
Definition current (pk : PassKey) : Z := cell0 (cnp pk).
Definition next (pk : PassKey) : Z := cell1 (cnp pk).
Definition previous (pk : PassKey) : Z := cell2 (cnp pk).

(** [k] firings, one per interval, of a ticker created at [t0]. *)
Fixpoint ticks (p : PassKey) (t0 : Z) (k : nat) : option PassKey :=
  match k with
  | O => Some p
  | S k' => q <- ticks p t0 k' ;; tick q (t0 + Z.of_nat k * interval q)
  end.

(** The state a reader finds at time [u] when [p] is the state [Start] left
    at [t0] and the ticker fires every interval since. *)
Definition session_at (p : PassKey) (t0 u : Z) : option PassKey :=
  ticks p t0 (Z.to_nat ((u - t0) / interval p)).

(* ================================================================== *)
(** ** net/http, as far as the package uses it *)

(** A request is known through [r.Header.Get]; an absent header reads as
    the empty string. *)
Record Request : Type := mkRequest { Header_Get : string -> string }.

(** [req.Header.Set(key, value)]. *)
Definition Header_Set (r : Request) (key value : string) : Request :=
  mkRequest (fun k => if String.eqb k key then value else Header_Get r k).

Definition StatusBadRequest : Z := 400.
Definition StatusUnauthorized : Z := 401.

(** What a handler does with a request: answer with a status and no body,
    or hand the request to the wrapped handler. *)
Inductive Response : Type :=
| WriteHeader (status : Z)
| ServeHTTP_next (r : Request).

(** The 10-byte credential: the code in little-endian order, then two
    random bytes. *)
Definition credential (code : Z) (rnd : list Z) : list Z :=
  let b := repeat 0 10 in
  let b := firstn 8 b ++ copy (skipn 8 b) rnd in
  copy b (LittleEndian.PutUint64 code).

(* ================================================================== *)
(** ** Server *)

Module Server.

Record t : Type := mk { pk : PassKey; hKey : string }.

Definition SetHeaderKey (s : t) (hkey : string) : t := mk (pk s) hkey.

(** [pk.IsValid(next)]: the receiver after the call. *)
Definition IsValid (s : t) : t :=
  if len (hKey s) =? 0 then mk (pk s) "token" else s.

(** The handler [IsValid] returns, run on the state [s] it finds. *)
Definition IsValid_handler (s : t) (r : Request) : option Response :=
  match Base32.DecodeString (Header_Get r (hKey s)) with
  | None => Some (WriteHeader StatusBadRequest)
  | Some b =>
      if negb (Z.of_nat (List.length b) =? 10)
      then Some (WriteHeader StatusBadRequest)
      else
        b8 <- slice b 0 8 ;;
        code <- LittleEndian.Uint64 b8 ;;
        if code =? cell0 (cnp (pk s)) then Some (ServeHTTP_next r)
        else if code =? cell1 (cnp (pk s)) then Some (ServeHTTP_next r)
        else if code =? cell2 (cnp (pk s)) then Some (ServeHTTP_next r)
        else Some (WriteHeader StatusUnauthorized)
  end.

(** [NewServer(ctx, secret)]. *)
Definition NewServer (secret : string) (rnd : list Z) (t0 t1 : Z)
  : option (t * list string) :=
  let p := fst (Secret zeroPassKey (SecretString secret)) in
  r <- Start p rnd t0 t1 ;;
  Some (mk (fst r) EmptyString, snd r).

End Server.

(* ================================================================== *)
(** ** Client *)

Module Client.

Record t : Type := mk { pk : PassKey; hKey : string }.

(** [pk.SetHeaderKey(hkey)]; [None] is the nil pointer. *)
Definition SetHeaderKey (c : t) (hkey : option string) : t :=
  match hkey with
  | None => mk (pk c) "token"
  | Some k => if len k =? 0 then mk (pk c) "token" else mk (pk c) k
  end.

(** [pk.SetHeader(req)]; [rnd] is what [rand.Read] delivers. *)
Definition SetHeader (c : t) (rnd : list Z) (req : Request) : Request :=
  let b := credential (cell0 (cnp (pk c))) rnd in
  Header_Set req (hKey c) (Base32.EncodeToString b).

(** [NewClient(ctx, secret)]. *)
Definition NewClient (secret : string) (rnd : list Z) (t0 t1 : Z)
  : option (t * list string) :=
  let c := SetHeaderKey (mk zeroPassKey EmptyString) None in
  let p := fst (Secret (pk c) (SecretString secret)) in
  r <- Start p rnd t0 t1 ;;
  Some (mk (fst r) (hKey c), snd r).

End Client.

(* ================================================================== *)
(** ** Command line *)

Module CMD.

(** [pk.Show()]. *)
Definition Show (p : PassKey) : string := Base32.EncodeToString (secret p).

(** [pk.Current(secret)]: the receiver after the call and the token. *)
Definition Current (p : PassKey) (s : string) (rnd_secret rnd : list Z)
    (now : Z) : option (PassKey * string) :=
  let p1 := if interval p =? 0 then Interval p None else p in
  let p2 := fst (Secret p1 (SecretString s)) in
  let p3 := failover p2 rnd_secret in
  p4 <- generate p3 0 now ;;
  Some (p4, Base32.EncodeToString (credential (cell0 (cnp p4)) rnd)).

End CMD.

(* ================================================================== *)
(** ** Notions used to state the properties *)

(** A byte that survives the removal of line breaks. *)
Definition plain_char (c : Z) : Prop :=
  is_byte c /\ (c =? 13) = false /\ (c =? 10) = false.

(** The little-endian value of eight bytes. *)
Definition le_value (b : list Z) : Z :=
  nth 0 b 0 + nth 1 b 0 * 2 ^ 8 + nth 2 b 0 * 2 ^ 16 + nth 3 b 0 * 2 ^ 24
  + nth 4 b 0 * 2 ^ 32 + nth 5 b 0 * 2 ^ 40 + nth 6 b 0 * 2 ^ 48
  + nth 7 b 0 * 2 ^ 56.

(** The bucket as the specification words it: [now] rounded down to the
    interval boundary, shifted by [slotOffset - 1] intervals. *)
Definition spec_bucket (d slotOffset now : Z) : Z :=
  let a := now + GoTime.unixToInternal * GoTime.Second in
  u64 (GoTime.Unix (now - a mod d + (slotOffset - 1) * d)).

(** The code the specification's [derive] yields for a slot offset. *)
Definition spec_derive (key : list Z) (d slotOffset now : Z) : option Z :=
  truncate (HMAC.Sum key (LittleEndian.PutUint64 (spec_bucket d slotOffset now))).

(** The states of a running session: what [Start] leaves, and what a firing
    of the ticker makes of a running state. *)
Inductive Running : PassKey -> Prop :=
| Running_Start (pk : PassKey) (rnd : list Z) (t0 t1 : Z) (p : PassKey)
    (out : list string) :
    Start pk rnd t0 t1 = Some (p, out) -> Running p
| Running_tick (p : PassKey) (now : Z) (p' : PassKey) :
    Running p -> tick p now = Some p' -> Running p'.

(** A request carrying the credential for [code] is handed to the wrapped
    handler by the validator in state [q]. *)
Definition validates (q : PassKey) (code : Z) (rnd : list Z) : Prop :=
  let r := mkRequest (fun _ => Base32.EncodeToString (credential code rnd)) in
  Server.IsValid_handler (Server.mk q "token") r = Some (ServeHTTP_next r).

(** A header value the validator cannot read as a credential. *)
Definition malformed (h : string) : Prop :=
  match Base32.DecodeString h with
  | None => True
  | Some b => List.length b <> 10%nat
  end.

(** A code is live when it equals one of the three slots. *)
Definition live (pk : PassKey) (code : Z) : Prop :=
  code = previous pk \/ code = current pk \/ code = next pk.

(** The setting of the examples shipped with the package: a 15-second
    interval and the secret [PASSKEYXXBASE32XXSECRETXXEXAMPLE]. *)
Definition example_interval : Z := 15 * GoTime.Second.

Definition example_pk : PassKey :=
  fst (Secret (Interval zeroPassKey (Some example_interval))
              (SecretString "PASSKEYXXBASE32XXSECRETXXEXAMPLE")).

(** A clock reading two seconds past an interval boundary. *)
Definition example_now : Z := 1700000002 * GoTime.Second.

(** The example session, started 13 seconds before [example_now]. *)
Definition example_started : PassKey :=
  match Start example_pk zero20 (example_now - 13 * GoTime.Second)
              (example_now - 13 * GoTime.Second) with
  | Some (p, _) => p
  | None => example_pk
  end.

(* ================================================================== *)
(** * Checks against published test vectors *)

Example sha1_abc :
  SHA1.Sum (bytes_of_string "abc") =
  [0xa9; 0x99; 0x3e; 0x36; 0x47; 0x06; 0x81; 0x6a; 0xba; 0x3e;
   0x25; 0x71; 0x78; 0x50; 0xc2; 0x6c; 0x9c; 0xd0; 0xd8; 0x9d].
Proof. vm_compute. reflexivity. Qed.

Example hmac_rfc2202_1 :
  HMAC.Sum (repeat 0x0b 20) (bytes_of_string "Hi There") =
  [0xb6; 0x17; 0x31; 0x86; 0x55; 0x05; 0x72; 0x64; 0xe2; 0x8b;
   0xc0; 0xb6; 0xfb; 0x37; 0x8c; 0x8e; 0xf1; 0x46; 0xbe; 0x00].
Proof. vm_compute. reflexivity. Qed.

Example hmac_rfc2202_2 :
  HMAC.Sum (bytes_of_string "Jefe")
           (bytes_of_string "what do ya want for nothing?") =
  [0xef; 0xfc; 0xdf; 0x6a; 0xe5; 0xeb; 0x2f; 0xa2; 0xd2; 0x74;
   0x16; 0xd5; 0xf1; 0x84; 0xdf; 0x9c; 0x25; 0x9a; 0x7c; 0x79].
Proof. vm_compute. reflexivity. Qed.

Example base32_rfc4648 :
  map (fun s => Base32.EncodeToString (bytes_of_string s))
      ["f"; "fo"; "foo"; "foob"; "fooba"; "foobar"]%string =
  ["MY======"; "MZXQ===="; "MZXW6==="; "MZXW6YQ="; "MZXW6YTB";
   "MZXW6YTBOI======"]%string.
Proof. vm_compute. reflexivity. Qed.

Example base32_decode_rfc4648 :
  map Base32.DecodeString
      ["MY======"; "MZXQ===="; "MZXW6==="; "MZXW6YQ="; "MZXW6YTB";
       "MZXW6YTBOI======"; "MZXW6YT"; "M======="; "MZXW6YTB=" ]%string =
  map (fun s => Some (bytes_of_string s))
      ["f"; "fo"; "foo"; "foob"; "fooba"; "foobar"]%string
  ++ [None; None; None].
Proof. vm_compute. reflexivity. Qed.

(* ================================================================== *)
(** * Bit operations as arithmetic *)

Ltac pow_consts :=
  repeat match goal with
         | |- context [2 ^ ?n] =>
             let v := eval cbv in (2 ^ n) in change (2 ^ n) with v
         end.

(** Linear arithmetic with division and remainder by constants. *)
Ltac zdiv := pow_consts; Z.div_mod_to_equations; lia.

Lemma u8_mod (x : Z) : u8 x = x mod 256.
Proof.
  unfold u8. change 0xFF with (Z.ones 8).
  rewrite Z.land_ones by lia. reflexivity.
Qed.

Lemma u8_byte (x : Z) : is_byte (u8 x).
Proof.
  rewrite u8_mod. unfold is_byte. apply Z.mod_pos_bound. lia.
Qed.

Lemma u8_id (x : Z) : is_byte x -> u8 x = x.
Proof.
  unfold is_byte. intros H. rewrite u8_mod. apply Z.mod_small. exact H.
Qed.

Lemma land_disjoint (n x y : Z) :
  0 <= n -> 0 <= x < 2 ^ n -> y mod 2 ^ n = 0 -> Z.land x y = 0.
Proof.
  intros Hn Hx Hy.
  apply Z.bits_inj'. intros m Hm.
  rewrite Z.land_spec, Z.bits_0.
  destruct (Z.lt_ge_cases m n) as [Hlt | Hge].
  - assert (Hq : y = y / 2 ^ n * 2 ^ n).
    { pose proof (Z.div_mod y (2 ^ n)). nia. }
    rewrite Hq, Z.mul_pow2_bits_low by lia.
    apply andb_false_r.
  - assert (Hz : Z.testbit x m = false).
    { destruct (Z.eq_dec x 0) as [-> | Hnz].
      - apply Z.bits_0.
      - apply Z.bits_above_log2; [lia |].
        apply Z.lt_le_trans with n; [| exact Hge].
        apply Z.log2_lt_pow2; lia. }
    rewrite Hz. reflexivity.
Qed.

Lemma lor_disjoint_add (n x y : Z) :
  0 <= n -> 0 <= x < 2 ^ n -> y mod 2 ^ n = 0 -> Z.lor x y = x + y.
Proof.
  intros Hn Hx Hy.
  pose proof (land_disjoint n x y Hn Hx Hy) as Hl.
  rewrite <- Z.lxor_lor by exact Hl.
  symmetry. apply Z.add_nocarry_lxor. exact Hl.
Qed.

Lemma Uint64_le_value (b : list Z) :
  (8 <= List.length b)%nat -> Forall is_byte (firstn 8 b) ->
  LittleEndian.Uint64 b = Some (le_value b).
Proof.
  intros Hlen Hb.
  do 8 (destruct b as [| ? b]; [simpl in Hlen; lia |]).
  cbn [firstn] in Hb.
  repeat match goal with
         | H : Forall _ (_ :: _) |- _ => inversion H; subst; clear H
         end.
  unfold is_byte in *.
  unfold LittleEndian.Uint64, le_value. cbn [nth].
  rewrite !Z.shiftl_mul_pow2 by lia.
  f_equal.
  rewrite (lor_disjoint_add 56 (_ * 2 ^ 48)) by zdiv.
  rewrite (lor_disjoint_add 48 (_ * 2 ^ 40)) by zdiv.
  rewrite (lor_disjoint_add 40 (_ * 2 ^ 32)) by zdiv.
  rewrite (lor_disjoint_add 32 (_ * 2 ^ 24)) by zdiv.
  rewrite (lor_disjoint_add 24 (_ * 2 ^ 16)) by zdiv.
  rewrite (lor_disjoint_add 16 (_ * 2 ^ 8)) by zdiv.
  rewrite (lor_disjoint_add 8) by zdiv.
  lia.
Qed.

Lemma PutUint64_nth (v : Z) (k : nat) :
  (k < 8)%nat ->
  nth k (LittleEndian.PutUint64 v) 0 = (v / 2 ^ (8 * Z.of_nat k)) mod 256.
Proof.
  intros Hk. unfold LittleEndian.PutUint64.
  do 8 (destruct k as [| k];
        [cbn [nth]; rewrite u8_mod, ?Z.shiftr_div_pow2 by lia;
         try reflexivity; rewrite ?Z.div_1_r; reflexivity |]).
  lia.
Qed.

Lemma PutUint64_bytes (v : Z) : Forall is_byte (LittleEndian.PutUint64 v).
Proof.
  unfold LittleEndian.PutUint64. repeat constructor; apply u8_byte.
Qed.

Lemma PutUint64_length (v : Z) : List.length (LittleEndian.PutUint64 v) = 8%nat.
Proof. reflexivity. Qed.

(** Reading back what was written gives the low 64 bits. *)
Lemma Uint64_PutUint64 (v : Z) (rest : list Z) :
  LittleEndian.Uint64 (LittleEndian.PutUint64 v ++ rest) = Some (u64 v).
Proof.
  rewrite Uint64_le_value.
  - f_equal. unfold le_value, LittleEndian.PutUint64. cbn [app nth].
    rewrite !u8_mod, !Z.shiftr_div_pow2 by lia. unfold u64.
    zdiv.
  - rewrite length_app, PutUint64_length. lia.
  - change (firstn 8 (LittleEndian.PutUint64 v ++ rest))
      with (LittleEndian.PutUint64 v).
    apply PutUint64_bytes.
Qed.

(* ================================================================== *)
(** * The digest *)

Lemma be_bytes32_bytes (x : Z) : Forall is_byte (SHA1.be_bytes32 x).
Proof.
  unfold SHA1.be_bytes32. repeat constructor; apply u8_byte.
Qed.

Lemma SHA1_Sum_words (msg : list Z) :
  exists h0 h1 h2 h3 h4,
    SHA1.Sum msg =
    SHA1.be_bytes32 h0 ++ SHA1.be_bytes32 h1 ++ SHA1.be_bytes32 h2
      ++ SHA1.be_bytes32 h3 ++ SHA1.be_bytes32 h4.
Proof.
  unfold SHA1.Sum.
  destruct (SHA1.blocks _ _ _) as [[[[h0 h1] h2] h3] h4].
  exists h0, h1, h2, h3, h4. reflexivity.
Qed.

Lemma SHA1_Sum_length (msg : list Z) : List.length (SHA1.Sum msg) = 20%nat.
Proof.
  destruct (SHA1_Sum_words msg) as (h0 & h1 & h2 & h3 & h4 & ->).
  reflexivity.
Qed.

Lemma SHA1_Sum_bytes (msg : list Z) : Forall is_byte (SHA1.Sum msg).
Proof.
  destruct (SHA1_Sum_words msg) as (h0 & h1 & h2 & h3 & h4 & ->).
  repeat (apply Forall_app; split); apply be_bytes32_bytes.
Qed.

Lemma HMAC_Sum_length (key msg : list Z) :
  List.length (HMAC.Sum key msg) = 20%nat.
Proof. apply SHA1_Sum_length. Qed.

Lemma HMAC_Sum_bytes (key msg : list Z) : Forall is_byte (HMAC.Sum key msg).
Proof. apply SHA1_Sum_bytes. Qed.

(** With a 20-byte key the construction is that of RFC 2104 with the key
    extended by 44 zero bytes. *)
Lemma HMAC_Sum_key20 (key msg : list Z) :
  List.length key = 20%nat ->
  HMAC.Sum key msg =
  SHA1.Sum (map (fun b => Z.lxor b 0x5c) (key ++ repeat 0 44)
            ++ SHA1.Sum (map (fun b => Z.lxor b 0x36) (key ++ repeat 0 44)
                         ++ msg)).
Proof.
  intros Hk. unfold HMAC.Sum, HMAC.block_key. rewrite Hk.
  change (SHA1.chunk <? 20)%nat with false. cbv iota. rewrite Hk.
  reflexivity.
Qed.

(* ================================================================== *)
(** * Dynamic truncation *)

Lemma nibble_value (h19 : Z) :
  nibble h19 = Z.land h19 0xF / 2 + 1 /\ 1 <= nibble h19 <= 8.
Proof.
  unfold nibble. rewrite u8_mod.
  change 0xf with (Z.ones 4). change 0xF with (Z.ones 4).
  rewrite Z.land_ones by lia.
  split; zdiv.
Qed.

Lemma slice_in_range {A} (s : list A) (lo hi : Z) :
  0 <= lo <= hi -> hi <= Z.of_nat (List.length s) ->
  slice s lo hi = Some (firstn (Z.to_nat (hi - lo)) (skipn (Z.to_nat lo) s)).
Proof.
  intros H1 H2. unfold slice.
  destruct (Z.leb_spec 0 lo); [| lia].
  destruct (Z.leb_spec lo hi); [| lia].
  destruct (Z.leb_spec hi (Z.of_nat (List.length s))); [| lia].
  reflexivity.
Qed.

Lemma Forall_take {A} (P : A -> Prop) (n : nat) (l : list A) :
  Forall P l -> Forall P (firstn n l).
Proof.
  intros H. revert n. induction H as [| x l Hx Hl IH]; intros [| n]; cbn;
    constructor; auto.
Qed.

Lemma Forall_drop {A} (P : A -> Prop) (n : nat) (l : list A) :
  Forall P l -> Forall P (skipn n l).
Proof.
  intros H. revert n. induction H as [| x l Hx Hl IH]; intros [| n]; cbn;
    try constructor; auto.
Qed.

Lemma le_value_firstn (b : list Z) : le_value (firstn 8 b) = le_value b.
Proof.
  unfold le_value. rewrite !nth_firstn. reflexivity.
Qed.

Lemma truncate_value (hash : list Z) :
  List.length hash = 20%nat -> Forall is_byte hash ->
  truncate hash =
  Some (le_value (skipn (Z.to_nat (nibble (nth 19 hash 0))) hash)).
Proof.
  intros Hlen Hb. unfold truncate.
  rewrite (nth_error_nth' hash 0) by lia.
  destruct (nibble_value (nth 19 hash 0)) as [_ Hn].
  set (n := nibble (nth 19 hash 0)) in *.
  rewrite (u8_id (n + 8)) by (unfold is_byte; lia).
  rewrite slice_in_range by lia.
  replace (n + 8 - n) with 8 by lia. change (Z.to_nat 8) with 8%nat.
  rewrite Uint64_le_value.
  - rewrite le_value_firstn. reflexivity.
  - rewrite length_firstn, length_skipn. lia.
  - rewrite firstn_firstn. apply Forall_take. apply Forall_drop. exact Hb.
Qed.

Lemma le_value_range (b : list Z) :
  Forall is_byte b -> 0 <= le_value b < 2 ^ 64.
Proof.
  intros Hb.
  assert (Hn : forall k, is_byte (nth k b 0)).
  { intros k. destruct (nth_in_or_default k b 0) as [Hin | ->].
    - rewrite Forall_forall in Hb. apply Hb. exact Hin.
    - unfold is_byte. lia. }
  unfold le_value.
  pose proof (Hn 0%nat). pose proof (Hn 1%nat). pose proof (Hn 2%nat).
  pose proof (Hn 3%nat). pose proof (Hn 4%nat). pose proof (Hn 5%nat).
  pose proof (Hn 6%nat). pose proof (Hn 7%nat).
  unfold is_byte in *. lia.
Qed.

(** C8: the start index of the truncation is [((digest[19] & 0xF) / 2) + 1]
    without wrap-around, lies in [1, 8], and the slice
    [digest[index : index+8]] of a 20-byte digest exists, ends at index at
    most 16 and consists of the eight digest bytes from the start index
    on. *)
Theorem truncation_offset_in_bounds (digest : list Z) :
  List.length digest = 20%nat ->
  let off := nibble (nth 19 digest 0) in
  off = Z.land (nth 19 digest 0) 0xF / 2 + 1 /\
  1 <= off <= 8 /\
  u8 (off + 8) = off + 8 /\
  off + 8 <= 16 /\
  exists s,
    slice digest off (u8 (off + 8)) = Some s /\
    List.length s = 8%nat /\
    forall k, (k < 8)%nat ->
      (Z.to_nat off + k < 20)%nat /\
      nth_error s k = nth_error digest (Z.to_nat off + k).
Proof.
  intros Hlen off.
  destruct (nibble_value (nth 19 digest 0)) as [Heq Hn].
  fold off in Heq, Hn.
  assert (Hu : u8 (off + 8) = off + 8) by (apply u8_id; unfold is_byte; lia).
  repeat split; try lia; try assumption.
  rewrite Hu, slice_in_range by lia.
  replace (off + 8 - off) with 8 by lia. change (Z.to_nat 8) with 8%nat.
  eexists. split; [reflexivity |]. split.
  - rewrite length_firstn, length_skipn. lia.
  - intros k Hk. split; [lia |].
    rewrite nth_error_firstn.
    destruct (Nat.ltb_spec k 8); [| lia].
    apply nth_error_skipn.
Qed.

Lemma truncation_offset_in_bounds_witness :
  let digest := HMAC.Sum (repeat 0x0b 20) (bytes_of_string "Hi There") in
  List.length digest = 20%nat /\ nibble (nth 19 digest 0) = 1.
Proof.
  split; [reflexivity |].
  exact (proj1 (truncation_offset_in_bounds
                  (HMAC.Sum (repeat 0x0b 20) (bytes_of_string "Hi There"))
                  eq_refl)).
Defined.

(* ================================================================== *)
(** * Derivation of a code *)

Lemma derive_value (key : list Z) (d i now : Z) :
  let digest := HMAC.Sum key (LittleEndian.PutUint64 (bucket d i now)) in
  let off := Z.land (nth 19 digest 0) 0xF / 2 + 1 in
  derive key d i now = Some (le_value (skipn (Z.to_nat off) digest)).
Proof.
  intros digest off. unfold derive. fold digest.
  rewrite truncate_value
    by (apply HMAC_Sum_length || apply HMAC_Sum_bytes).
  unfold off. rewrite <- (proj1 (nibble_value (nth 19 digest 0))).
  reflexivity.
Qed.

Lemma derive_total (key : list Z) (d i now : Z) :
  exists code, derive key d i now = Some code /\ 0 <= code < 2 ^ 64.
Proof.
  rewrite derive_value. eexists. split; [reflexivity |].
  apply le_value_range. apply Forall_drop. apply HMAC_Sum_bytes.
Qed.

Lemma Store_Load (a : Array3) (i v : Z) :
  0 <= i <= 2 -> exists a', Store a i v = Some a' /\ Load a' i = Some v.
Proof.
  intros Hi.
  assert (Hc : i = 0 \/ i = 1 \/ i = 2) by lia.
  destruct Hc as [-> | [-> | ->]]; eexists; split; reflexivity.
Qed.

Lemma Store_Load_other (a a' : Array3) (i j v : Z) :
  Store a i v = Some a' -> j <> i -> Load a' j = Load a j.
Proof.
  intros Hs Hj.
  destruct i as [| [[| |] | [| |] |] |]; try discriminate;
    injection Hs as <-;
    destruct j as [| [[| |] | [| |] |] |]; try reflexivity; congruence.
Qed.

(** C1: [generate(i)] hashes the 8-byte little-endian serialization of the
    time bucket with HMAC-SHA1 keyed by the 20-byte secret, and stores in
    slot [i] the little-endian 64-bit value of the eight digest bytes that
    start at index [((digest[19] & 0xF) / 2) + 1]. *)
Theorem generate_stores_truncated_hmac (pk : PassKey) (i now : Z) :
  List.length (secret pk) = 20%nat -> 0 < interval pk -> 0 <= i <= 2 ->
  let b := bucket (interval pk) i now in
  let msg := LittleEndian.PutUint64 b in
  let digest := HMAC.Sum (secret pk) msg in
  let off := Z.land (nth 19 digest 0) 0xF / 2 + 1 in
  let code := le_value (skipn (Z.to_nat off) digest) in
  (List.length msg = 8%nat /\
   forall k, (k < 8)%nat -> nth k msg 0 = (b / 2 ^ (8 * Z.of_nat k)) mod 256) /\
  (List.length digest = 20%nat /\
   digest =
   SHA1.Sum (map (fun x => Z.lxor x 0x5c) (secret pk ++ repeat 0 44)
             ++ SHA1.Sum (map (fun x => Z.lxor x 0x36)
                              (secret pk ++ repeat 0 44) ++ msg))) /\
  derive (secret pk) (interval pk) i now = Some code /\
  0 <= code < 2 ^ 64 /\
  exists pk',
    generate pk i now = Some pk' /\
    Load (cnp pk') i = Some code /\
    (forall j, j <> i -> Load (cnp pk') j = Load (cnp pk) j) /\
    secret pk' = secret pk /\ interval pk' = interval pk.
Proof.
  intros Hlen Hd Hi b msg digest off code.
  split; [split; [reflexivity | intros k Hk; apply PutUint64_nth; exact Hk] |].
  split; [split; [apply HMAC_Sum_length | apply HMAC_Sum_key20; exact Hlen] |].
  pose proof (derive_value (secret pk) (interval pk) i now) as Hv.
  cbv zeta in Hv. fold b msg digest off code in Hv.
  split; [exact Hv |].
  split; [apply le_value_range, Forall_drop, HMAC_Sum_bytes |].
  destruct (Store_Load (cnp pk) i code Hi) as (a' & Hs & Hl).
  exists (with_cnp pk a'). unfold generate. rewrite Hv, Hs.
  repeat split; try assumption.
  intros j Hj. cbn. eapply Store_Load_other; eassumption.
Qed.

Lemma generate_stores_truncated_hmac_witness :
  (List.length (secret example_pk) = 20%nat /\
   0 < interval example_pk /\ 0 <= 1 <= 2) /\
  derive (secret example_pk) (interval example_pk) 1 example_now
  = Some 8644107498317547602.
Proof.
  split; [vm_compute; intuition congruence |].
  assert (H1 : List.length (secret example_pk) = 20%nat) by reflexivity.
  assert (H2 : 0 < interval example_pk) by reflexivity.
  assert (H3 : 0 <= 1 <= 2) by lia.
  destruct (generate_stores_truncated_hmac example_pk 1 example_now H1 H2 H3)
    as (_ & _ & Hd & _).
  rewrite Hd. vm_compute. reflexivity.
Defined.

(* ================================================================== *)
(** * The time bucket *)

Lemma i64_id (x : Z) : - 2 ^ 63 <= x < 2 ^ 63 -> i64 x = x.
Proof. intros H. unfold i64. revert H. zdiv. Qed.

(** Closed form of [Round]: the quotient of the doubled instant. *)
Lemma Round_closed_form (t d : Z) :
  0 < d ->
  let e := GoTime.unixToInternal * GoTime.Second in
  GoTime.Round t d = d * ((2 * (t + e) + d) / (2 * d)) - e.
Proof.
  intros Hd e. unfold GoTime.Round, GoTime.Add. fold e.
  destruct (Z.leb_spec d 0); [lia |].
  pose proof (Z.div_mod (t + e) d ltac:(lia)) as Hdm.
  pose proof (Z.mod_pos_bound (t + e) d Hd) as Hr.
  set (q := (t + e) / d) in *. set (r := (t + e) mod d) in *.
  destruct (Z.ltb_spec (r + r) d).
  - rewrite <- (Z.div_unique (2 * (t + e) + d) (2 * d) q (2 * r + d)); nia.
  - rewrite <- (Z.div_unique (2 * (t + e) + d) (2 * d) (q + 1) (2 * r - d));
      nia.
Qed.

Lemma Round_nearest (t d : Z) :
  0 < d ->
  let R := GoTime.Round t d in
  (R + GoTime.unixToInternal * GoTime.Second) mod d = 0 /\
  - d <= 2 * (t - R) < d.
Proof.
  intros Hd R. subst R. unfold GoTime.Round, GoTime.Add.
  destruct (Z.leb_spec d 0); [lia |].
  set (e := GoTime.unixToInternal * GoTime.Second).
  pose proof (Z.div_mod (t + e) d ltac:(lia)) as Hdm.
  pose proof (Z.mod_pos_bound (t + e) d Hd) as Hr.
  set (q := (t + e) / d) in *. set (r := (t + e) mod d) in *.
  destruct (Z.ltb_spec (r + r) d).
  - split; [| lia].
    replace (t + - r + e) with (q * d) by lia. apply Z.mod_mul. lia.
  - split; [| lia].
    replace (t + (d - r) + e) with ((q + 1) * d) by lia. apply Z.mod_mul. lia.
Qed.

Lemma Round_shift_mul (t d k : Z) :
  0 < d -> GoTime.Round (t + k * d) d = GoTime.Round t d + k * d.
Proof.
  intros Hd. unfold GoTime.Round, GoTime.Add.
  destruct (Z.leb_spec d 0); [lia |].
  replace (t + k * d + GoTime.unixToInternal * GoTime.Second)
    with (t + GoTime.unixToInternal * GoTime.Second + k * d) by lia.
  rewrite Z.mod_add by lia.
  set (r := (t + GoTime.unixToInternal * GoTime.Second) mod d).
  destruct (Z.ltb_spec (r + r) d); lia.
Qed.

Lemma Round_mono (t1 t2 d : Z) :
  0 < d -> t1 <= t2 -> GoTime.Round t1 d <= GoTime.Round t2 d.
Proof.
  intros Hd Ht. rewrite !Round_closed_form by lia. cbv zeta.
  apply Z.sub_le_mono_r. apply Z.mul_le_mono_nonneg_l; [lia |].
  apply Z.div_le_mono; lia.
Qed.

Lemma bucket_value (d i now : Z) :
  - 2 ^ 63 < d < 2 ^ 63 -> 0 <= i <= 2 ->
  bucket d i now = u64 (GoTime.Unix (GoTime.Round (now + (i - 1) * d) d)).
Proof.
  intros Hd Hi. unfold bucket, GoTime.Add.
  rewrite (i64_id (i - 1)) by lia.
  rewrite i64_id by nia. reflexivity.
Qed.

(** C2 as stated fails twice.  With a 60-second interval and the clock 100
    seconds after the epoch, [generate(1)] hashes 120, the nearest boundary,
    where rounding down gives 60.  And [generate(1)] does not write the
    current slot: in the example setting it leaves it at zero and writes the
    next slot. *)
Lemma bucket_not_rounded_down :
  ~ (forall d i now, 0 < d -> 0 <= i <= 2 ->
       bucket d i now = spec_bucket d i now) /\
  ~ (forall pk now pk', 0 < interval pk ->
       generate pk 1 now = Some pk' ->
       derive (secret pk) (interval pk) 1 now = Some (current pk')).
Proof.
  split.
  - intros H.
    specialize (H (60 * GoTime.Second) 1 (100 * GoTime.Second)
                  eq_refl ltac:(lia)).
    vm_compute in H. discriminate H.
  - intros H.
    destruct (generate example_pk 1 example_now) as [pk' |] eqn:Hg;
      [| vm_compute in Hg; discriminate Hg].
    specialize (H example_pk example_now pk' eq_refl Hg).
    vm_compute in Hg. injection Hg as <-.
    vm_compute in H. discriminate H.
Qed.

Lemma generate_slot (pk : PassKey) (i now : Z) :
  0 <= i <= 2 ->
  exists code,
    derive (secret pk) (interval pk) i now = Some code /\
    generate pk i now
    = Some (with_cnp pk
              (if i =? 0 then mkArray3 code (cell1 (cnp pk)) (cell2 (cnp pk))
               else if i =? 1
                    then mkArray3 (cell0 (cnp pk)) code (cell2 (cnp pk))
                    else mkArray3 (cell0 (cnp pk)) (cell1 (cnp pk)) code)).
Proof.
  intros Hi.
  destruct (derive_total (secret pk) (interval pk) i now) as (code & Hc & _).
  exists code. split; [exact Hc |].
  unfold generate. rewrite Hc.
  assert (H : i = 0 \/ i = 1 \/ i = 2) by lia.
  destruct H as [-> | [-> | ->]]; reflexivity.
Qed.

(** C2 (amended): the bucket hashed by [generate(i)] is the Unix second of
    [now + (i - 1) * interval] rounded to the nearest interval boundary
    counted from the zero time, halfway values rounding up; index 0 writes
    the current slot, index 1 the next slot and index 2 the previous slot. *)
Theorem bucket_is_nearest_boundary (pk : PassKey) (i now : Z) :
  0 < interval pk < 2 ^ 63 -> 0 <= i <= 2 ->
  let d := interval pk in
  let t := now + (i - 1) * d in
  let R := GoTime.Round t d in
  bucket d i now = u64 (GoTime.Unix R) /\
  (R + GoTime.unixToInternal * GoTime.Second) mod d = 0 /\
  - d <= 2 * (t - R) < d /\
  exists code pk',
    derive (secret pk) d i now = Some code /\
    generate pk i now = Some pk' /\
    (i = 0 -> current pk' = code /\ next pk' = next pk
              /\ previous pk' = previous pk) /\
    (i = 1 -> next pk' = code /\ current pk' = current pk
              /\ previous pk' = previous pk) /\
    (i = 2 -> previous pk' = code /\ current pk' = current pk
              /\ next pk' = next pk).
Proof.
  intros Hd Hi d t R.
  split; [apply bucket_value; lia |].
  destruct (Round_nearest t d ltac:(lia)) as [Hm Hn].
  split; [exact Hm |]. split; [exact Hn |].
  destruct (generate_slot pk i now Hi) as (code & Hc & Hg).
  exists code. eexists. split; [exact Hc |]. split; [exact Hg |].
  split; [| split]; intros E; rewrite E; repeat split.
Qed.

Lemma bucket_is_nearest_boundary_witness :
  (0 < interval example_pk < 2 ^ 63 /\ 0 <= 1 <= 2) /\
  bucket (interval example_pk) 1 (example_now + 6 * GoTime.Second)
  = 1700000010.
Proof.
  split; [vm_compute; intuition congruence |].
  assert (H1 : 0 < interval example_pk < 2 ^ 63) by (split; reflexivity).
  assert (H2 : 0 <= 1 <= 2) by lia.
  destruct (bucket_is_nearest_boundary
              example_pk 1 (example_now + 6 * GoTime.Second) H1 H2)
    as (Hb & _).
  rewrite Hb. vm_compute. reflexivity.
Defined.

(* ================================================================== *)
(** * Rotation *)

Lemma generate_keeps (pk pk' : PassKey) (i now : Z) :
  generate pk i now = Some pk' ->
  secret pk' = secret pk /\ interval pk' = interval pk.
Proof.
  unfold generate. intros H.
  destruct (derive _ _ _ _); [| discriminate].
  destruct (Store _ _ _); [| discriminate].
  injection H as <-. split; reflexivity.
Qed.

Lemma tick_value (p : PassKey) (now : Z) :
  exists code,
    derive (secret p) (interval p) 1 now = Some code /\
    tick p now
    = Some (with_cnp p (mkArray3 (cell1 (cnp p)) code (cell0 (cnp p)))).
Proof.
  destruct (derive_total (secret p) (interval p) 1 now) as (code & Hc & _).
  exists code. split; [exact Hc |].
  unfold tick, generate. cbn. rewrite Hc. reflexivity.
Qed.

Lemma tick_keeps (p p' : PassKey) (now : Z) :
  tick p now = Some p' ->
  secret p' = secret p /\ interval p' = interval p.
Proof.
  destruct (tick_value p now) as (code & _ & Ht).
  rewrite Ht. intros H. injection H as <-. split; reflexivity.
Qed.

Lemma Start_interval_pos (pk : PassKey) (rnd : list Z) (t0 t1 : Z)
    (p : PassKey) (out : list string) :
  Start pk rnd t0 t1 = Some (p, out) -> 0 < interval p.
Proof.
  unfold Start. intros H.
  destruct (generate _ 0 t0) as [p3 |]; [| discriminate].
  destruct (generate p3 1 t1) as [p4 |]; [| discriminate].
  destruct (Z.leb_spec (interval p4) 0); [discriminate |].
  injection H as <- _. assumption.
Qed.

Lemma Running_interval_pos (p : PassKey) : Running p -> 0 < interval p.
Proof.
  induction 1 as [pk rnd t0 t1 p out Hs | p now p' _ IH Ht].
  - eapply Start_interval_pos; eassumption.
  - destruct (tick_keeps _ _ _ Ht) as [_ ->]. exact IH.
Qed.

(** C3 as stated fails: a session of the example setting is started 13
    seconds before [example_now] and fires at [example_now], two seconds
    past a boundary; the fresh next slot is derived for that boundary, not
    for the bucket one interval ahead. *)
Lemma tick_next_not_one_interval_ahead :
  ~ (forall p now p', Running p -> tick p now = Some p' ->
       previous p' = current p /\ current p' = next p /\
       Some (next p') = spec_derive (secret p) (interval p) 2 now).
Proof.
  intros H.
  destruct (Start example_pk zero20 (example_now - 13 * GoTime.Second)
              (example_now - 13 * GoTime.Second)) as [[p out] |] eqn:Hs;
    [| vm_compute in Hs; discriminate Hs].
  destruct (tick p example_now) as [p' |] eqn:Ht;
    [| vm_compute in Hs; injection Hs as <- <-;
       vm_compute in Ht; discriminate Ht].
  destruct (H p example_now p' (Running_Start _ _ _ _ _ _ Hs) Ht)
    as (_ & _ & Hn).
  vm_compute in Hs. injection Hs as <- <-.
  vm_compute in Ht. injection Ht as <-.
  vm_compute in Hn. discriminate Hn.
Qed.

(** C3 (amended): one firing of the ticker in a running session moves the
    current slot into the previous slot and the next slot into the current
    slot, and derives the next slot with [generate(1)]: for the interval
    boundary nearest to the time of the firing, with no shift by an
    interval. *)
Theorem tick_rotates_window (p : PassKey) (now : Z) :
  Running p ->
  exists p' code,
    tick p now = Some p' /\
    previous p' = current p /\
    current p' = next p /\
    next p' = code /\
    derive (secret p) (interval p) 1 now = Some code /\
    bucket (interval p) 1 now
    = u64 (GoTime.Unix (GoTime.Round now (interval p))) /\
    - interval p <= 2 * (now - GoTime.Round now (interval p)) < interval p /\
    Running p'.
Proof.
  intros Hr.
  destruct (tick_value p now) as (code & Hc & Ht).
  eexists. exists code. split; [exact Ht |].
  repeat split; try assumption.
  - unfold bucket, GoTime.Add. cbn. rewrite Z.add_0_r. reflexivity.
  - apply (Round_nearest now (interval p)), Running_interval_pos, Hr.
  - apply (Round_nearest now (interval p)), Running_interval_pos, Hr.
  - eapply Running_tick; eassumption.
Qed.

Lemma tick_rotates_window_witness :
  Running example_started /\
  exists p', tick example_started example_now = Some p' /\
             previous p' = 4799645867104616598.
Proof.
  assert (Hr : Running example_started).
  { apply (Running_Start example_pk zero20 (example_now - 13 * GoTime.Second)
             (example_now - 13 * GoTime.Second) example_started []).
    vm_compute. reflexivity. }
  split; [exact Hr |].
  destruct (tick_rotates_window example_started example_now Hr)
    as (p' & code & Ht & Hp & _).
  exists p'. split; [exact Ht |]. rewrite Hp. vm_compute. reflexivity.
Defined.

(* ================================================================== *)
(** * The transport encoding *)

Lemma byte_bits_high (b n : Z) : is_byte b -> 8 <= n -> Z.testbit b n = false.
Proof.
  unfold is_byte. intros Hb Hn.
  destruct (Z.eq_dec b 0) as [-> | Hz]; [apply Z.bits_0 |].
  apply Z.bits_above_log2; [lia |].
  apply Z.lt_le_trans with 8; [| exact Hn].
  apply Z.log2_lt_pow2; lia.
Qed.

Ltac bits_rewrite :=
  repeat first
    [ rewrite Z.land_spec
    | rewrite Z.lor_spec
    | rewrite Z.testbit_neg_r by lia
    | rewrite Z.shiftl_spec by lia
    | rewrite Z.shiftr_spec by lia
    | rewrite Z.testbit_ones_nonneg by lia ].

Ltac bits_finish :=
  cbn -[Z.testbit];
  repeat match goal with
         | |- context [Z.testbit ?b ?k] =>
             first [ rewrite (byte_bits_high b k) by (first [assumption | lia])
                   | destruct (Z.testbit b k) ]
         end;
  reflexivity.

(** Equality of a byte-valued bit expression and a byte, bit by bit. *)
Ltac byte_bits :=
  let n := fresh "n" in
  let Hn := fresh "Hn" in
  let Hc := fresh "Hc" in
  apply Z.bits_inj'; intros n Hn;
  unfold u8; change 0xFF with (Z.ones 8); change 0x1F with (Z.ones 5);
  change 31 with (Z.ones 5);
  destruct (Z.lt_ge_cases n 8) as [Hc | Hc];
  [ assert (n = 0 \/ n = 1 \/ n = 2 \/ n = 3 \/ n = 4 \/ n = 5 \/ n = 6
            \/ n = 7) as [-> | [-> | [-> | [-> | [-> | [-> | [-> | ->]]]]]]]
      by lia;
    bits_rewrite; bits_finish
  | rewrite Z.land_spec, Z.testbit_ones_nonneg by lia;
    destruct (Z.ltb_spec n 8); [lia |];
    rewrite andb_false_r; symmetry; apply byte_bits_high; assumption ].

(** Packing undoes unpacking on a full quantum. *)
Lemma pack_unpack (b0 b1 b2 b3 b4 : Z) :
  is_byte b0 -> is_byte b1 -> is_byte b2 -> is_byte b3 -> is_byte b4 ->
  Base32.pack 8 (map (fun v => Z.land v 31)
                     (Base32.unpack [b0; b1; b2; b3; b4]))
  = [b0; b1; b2; b3; b4].
Proof.
  intros H0 H1 H2 H3 H4.
  unfold Base32.pack, Base32.unpack. cbn [map nth firstn].
  repeat f_equal; byte_bits.
Qed.

Lemma land31_range (v : Z) : 0 <= Z.land v 31 < 32.
Proof.
  change 31 with (Z.ones 5). rewrite Z.land_ones by lia.
  apply Z.mod_pos_bound. lia.
Qed.

(** The alphabet: each five-bit value has a character, which is a byte other
    than the padding character and the line breaks, and maps back to it. *)
Lemma encode_facts (i : Z) :
  0 <= i < 32 ->
  Base32.decodeMap (Base32.encode i) = i /\
  (Base32.encode i =? Base32.padChar) = false /\
  (Base32.encode i =? 13) = false /\
  (Base32.encode i =? 10) = false /\
  is_byte (Base32.encode i).
Proof.
  intros Hi. rewrite <- (Z2Nat.id i) by lia.
  assert (Hn : (Z.to_nat i < 32)%nat) by lia.
  generalize dependent (Z.to_nat i). clear i Hi. intros n Hn.
  do 32 (destruct n as [| n];
         [vm_compute; repeat split; congruence |]).
  lia.
Qed.

Lemma decode_step (v : Z) (src : list Z) (j : nat) (dbuf : list Z) :
  0 <= v < 32 ->
  Base32.decode (Base32.encode v :: src) j dbuf =
  match j with
  | 7%nat =>
      match Base32.decode src 0 [] with
      | Some rest => Some (Base32.pack 8 (dbuf ++ [v]) ++ rest)
      | None => None
      end
  | _ => Base32.decode src (S j) (dbuf ++ [v])
  end.
Proof.
  intros Hv. destruct (encode_facts v Hv) as (Hd & Hp & _).
  cbn [Base32.decode]. rewrite Hp, Hd. cbn [andb].
  destruct (Z.eqb_spec v 0xFF); [lia |]. reflexivity.
Qed.

Lemma decode_quantum (b0 b1 b2 b3 b4 : Z) (rest : list Z) :
  is_byte b0 -> is_byte b1 -> is_byte b2 -> is_byte b3 -> is_byte b4 ->
  Base32.decode (Base32.quantum [b0; b1; b2; b3; b4] ++ rest) 0 [] =
  match Base32.decode rest 0 [] with
  | Some r => Some ([b0; b1; b2; b3; b4] ++ r)
  | None => None
  end.
Proof.
  intros H0 H1 H2 H3 H4.
  pose proof (pack_unpack b0 b1 b2 b3 b4 H0 H1 H2 H3 H4) as Hp.
  unfold Base32.quantum. unfold Base32.unpack in *.
  cbn [map nth app] in *.
  rewrite !decode_step by apply land31_range.
  cbn [app]. rewrite Hp. reflexivity.
Qed.

Lemma quantum_chars (src : list Z) :
  Forall plain_char (Base32.quantum src).
Proof.
  assert (Hv : forall v, plain_char (Base32.encode (Z.land v 31))).
  { intros v.
    destruct (encode_facts (Z.land v 31) (land31_range v))
      as (_ & _ & ? & ? & ?).
    unfold plain_char. auto. }
  unfold Base32.quantum, Base32.unpack. cbn [map].
  repeat (apply Forall_cons; [apply Hv |]). apply Forall_nil.
Qed.

(** Encoding followed by decoding is the identity on whole quanta. *)
Lemma Encode_decode (n : nat) (b : list Z) :
  List.length b = (5 * n)%nat -> Forall is_byte b ->
  Forall plain_char (Base32.Encode b) /\
  List.length (Base32.Encode b) = (8 * n)%nat /\
  Base32.decode (Base32.Encode b) 0 [] = Some b.
Proof.
  revert b. induction n as [| n IH]; intros b Hlen Hb.
  - destruct b; [| discriminate Hlen]. repeat split. constructor.
  - destruct b as [| b0 [| b1 [| b2 [| b3 [| b4 rest]]]]];
      try (cbn in Hlen; lia).
    repeat match goal with
           | H : Forall _ (_ :: _) |- _ => inversion H; subst; clear H
           end.
    destruct (IH rest) as (Hc & Hl & Hd); [cbn in Hlen; lia | assumption |].
    change (Base32.Encode (b0 :: b1 :: b2 :: b3 :: b4 :: rest))
      with (Base32.quantum [b0; b1; b2; b3; b4] ++ Base32.Encode rest).
    split; [| split].
    + apply Forall_app. split; [apply quantum_chars | exact Hc].
    + rewrite length_app, Hl. cbn. lia.
    + rewrite decode_quantum, Hd by assumption. reflexivity.
Qed.

Lemma bytes_of_string_of_bytes (l : list Z) :
  Forall is_byte l -> bytes_of_string (string_of_bytes l) = l.
Proof.
  intros Hl. unfold bytes_of_string, string_of_bytes.
  rewrite list_ascii_of_string_of_list_ascii, map_map.
  induction Hl as [| x l Hx Hl IH]; [reflexivity |].
  cbn [map]. rewrite IH. f_equal.
  unfold is_byte in Hx.
  rewrite N_ascii_embedding by lia. lia.
Qed.

Lemma stripNewlines_id (l : list Z) :
  Forall plain_char l ->
  Base32.stripNewlines l = l.
Proof.
  induction 1 as [| c l (_ & H13 & H10) _ IH]; [reflexivity |].
  unfold Base32.stripNewlines in *. cbn [filter].
  rewrite H13, H10. cbn. rewrite IH. reflexivity.
Qed.

Lemma DecodeString_EncodeToString (n : nat) (b : list Z) :
  List.length b = (5 * n)%nat -> Forall is_byte b ->
  Base32.DecodeString (Base32.EncodeToString b) = Some b.
Proof.
  intros Hlen Hb.
  destruct (Encode_decode n b Hlen Hb) as (Hc & _ & Hd).
  unfold Base32.DecodeString, Base32.EncodeToString.
  rewrite bytes_of_string_of_bytes.
  - rewrite stripNewlines_id by exact Hc. exact Hd.
  - eapply Forall_impl; [| exact Hc]. intros c Hcc. apply Hcc.
Qed.

Lemma credential_bytes (code : Z) (rnd : list Z) :
  List.length rnd = 2%nat ->
  credential code rnd = LittleEndian.PutUint64 code ++ rnd.
Proof.
  intros Hl.
  destruct rnd as [| r0 [| r1 [| ? ?]]]; try discriminate Hl.
  reflexivity.
Qed.

Lemma credential_decodes (code : Z) (rnd : list Z) :
  0 <= code < 2 ^ 64 -> List.length rnd = 2%nat -> Forall is_byte rnd ->
  exists b,
    Base32.DecodeString (Base32.EncodeToString (credential code rnd))
    = Some b /\
    List.length b = 10%nat /\
    b = LittleEndian.PutUint64 code ++ rnd /\
    (b8 <- slice b 0 8 ;; LittleEndian.Uint64 b8) = Some code.
Proof.
  intros Hc Hl Hr.
  rewrite credential_bytes by exact Hl.
  exists (LittleEndian.PutUint64 code ++ rnd).
  split; [| split; [| split]].
  - apply (DecodeString_EncodeToString 2).
    + rewrite length_app, Hl. reflexivity.
    + apply Forall_app. split; [apply PutUint64_bytes | exact Hr].
  - rewrite length_app, Hl. reflexivity.
  - reflexivity.
  - rewrite slice_in_range by (rewrite ?length_app, ?Hl; cbn; lia).
    change (Z.to_nat (8 - 0)) with 8%nat. change (Z.to_nat 0) with 0%nat.
    cbn [skipn].
    change (firstn 8 (LittleEndian.PutUint64 code ++ rnd))
      with (LittleEndian.PutUint64 code).
    rewrite <- (app_nil_r (LittleEndian.PutUint64 code)).
    rewrite Uint64_PutUint64. unfold u64. rewrite Z.mod_small by lia.
    reflexivity.
Qed.

(** What [Client.SetHeader] puts in the header it was configured for. *)
Lemma SetHeader_sends_current (c : Client.t) (rnd : list Z) (req : Request) :
  Header_Get (Client.SetHeader c rnd req) (Client.hKey c)
  = Base32.EncodeToString (credential (current (Client.pk c)) rnd).
Proof.
  unfold Client.SetHeader, Header_Set. cbn [Header_Get].
  rewrite String.eqb_refl. reflexivity.
Qed.

(** C7: the credential built from a 64-bit code and two padding bytes is
    the 8-byte little-endian code followed by the padding; decoding its
    transport encoding gives the same 10 bytes back, and the little-endian
    value of the first eight is the code. *)
Theorem credential_round_trip (code : Z) (rnd : list Z) :
  0 <= code < 2 ^ 64 -> List.length rnd = 2%nat -> Forall is_byte rnd ->
  let token := Base32.EncodeToString (credential code rnd) in
  exists b,
    Base32.DecodeString token = Some b /\
    List.length b = 10%nat /\
    b = LittleEndian.PutUint64 code ++ rnd /\
    (b8 <- slice b 0 8 ;; LittleEndian.Uint64 b8) = Some code.
Proof.
  intros Hc Hl Hr token. subst token.
  apply credential_decodes; assumption.
Qed.

Lemma credential_round_trip_witness :
  (0 <= 2 ^ 64 - 1 < 2 ^ 64 /\ List.length [0xAB; 0xCD] = 2%nat
   /\ Forall is_byte [0xAB; 0xCD]) /\
  Base32.DecodeString (Base32.EncodeToString (credential (2 ^ 64 - 1)
                                                         [0xAB; 0xCD]))
  = Some [255; 255; 255; 255; 255; 255; 255; 255; 0xAB; 0xCD].
Proof.
  assert (H1 : 0 <= 2 ^ 64 - 1 < 2 ^ 64) by lia.
  assert (H2 : List.length [0xAB; 0xCD] = 2%nat) by reflexivity.
  assert (H3 : Forall is_byte [0xAB; 0xCD])
    by (repeat constructor; unfold is_byte; lia).
  split; [split; [exact H1 | split; [exact H2 | exact H3]] |].
  destruct (credential_round_trip (2 ^ 64 - 1) [0xAB; 0xCD] H1 H2 H3)
    as (b & Hd & _ & Hb & _).
  rewrite Hd, Hb. reflexivity.
Defined.

Lemma pack_bytes (n : nat) (d : list Z) : Forall is_byte (Base32.pack n d).
Proof.
  unfold Base32.pack. apply Forall_take.
  repeat (apply Forall_cons; [apply u8_byte |]). apply Forall_nil.
Qed.

Lemma decode_bytes (src : list Z) :
  forall (j : nat) (dbuf out : list Z),
    Base32.decode src j dbuf = Some out -> Forall is_byte out.
Proof.
  induction src as [| c src IH]; intros j dbuf out H.
  - destruct j; [| discriminate H]. injection H as <-. constructor.
  - cbn [Base32.decode] in H.
    destruct ((c =? Base32.padChar) && (2 <=? j)%nat
              && (List.length src <? 8)%nat).
    + destruct (List.length src + j <? 7)%nat; [discriminate H |].
      destruct (negb _); [discriminate H |].
      destruct ((j =? 3)%nat || (j =? 6)%nat); [discriminate H |].
      replace out with (Base32.pack j dbuf) by congruence.
      apply pack_bytes.
    + destruct (Base32.decodeMap c =? 0xFF); [discriminate H |].
      do 7 (destruct j as [| j]; [eapply IH; exact H |]).
      destruct j as [| j]; [| eapply IH; exact H].
      destruct (Base32.decode src 0 []) as [rest |] eqn:E;
        [| discriminate H].
      replace out
        with (Base32.pack 8 (dbuf ++ [Base32.decodeMap c]) ++ rest)
        by congruence.
      apply Forall_app. split.
      * apply pack_bytes.
      * eapply IH. exact E.
Qed.

(** The three ways the handler ends. *)
Lemma IsValid_handler_cases (s : Server.t) (r : Request) :
  match Base32.DecodeString (Header_Get r (Server.hKey s)) with
  | None => Server.IsValid_handler s r = Some (WriteHeader StatusBadRequest)
  | Some b =>
      if (List.length b =? 10)%nat then
        exists code,
          LittleEndian.Uint64 (firstn 8 b) = Some code /\
          code = le_value b /\
          Server.IsValid_handler s r =
          Some (if (code =? current (Server.pk s))
                   || (code =? next (Server.pk s))
                   || (code =? previous (Server.pk s))
                then ServeHTTP_next r
                else WriteHeader StatusUnauthorized)
      else Server.IsValid_handler s r = Some (WriteHeader StatusBadRequest)
  end.
Proof.
  unfold Server.IsValid_handler.
  destruct (Base32.DecodeString _) as [b |] eqn:Hd; [| reflexivity].
  destruct (Nat.eqb_spec (List.length b) 10) as [Hl | Hl].
  - rewrite Hl. cbn [negb Z.of_nat Z.eqb Pos.of_succ_nat Pos.succ Pos.eqb].
    rewrite slice_in_range by lia.
    change (Z.to_nat (8 - 0)) with 8%nat. change (Z.to_nat 0) with 0%nat.
    cbn [skipn].
    assert (Hb : Forall is_byte b) by (eapply decode_bytes; exact Hd).
    rewrite (Uint64_le_value (firstn 8 b)).
    + rewrite le_value_firstn. eexists. split; [reflexivity |].
      split; [reflexivity |].
      unfold current, next, previous.
      destruct (le_value b =? cell0 _); [reflexivity |].
      destruct (le_value b =? cell1 _); [reflexivity |].
      destruct (le_value b =? cell2 _); reflexivity.
    + rewrite length_firstn. lia.
    + rewrite firstn_firstn. apply Forall_take. exact Hb.
  - destruct (Z.eqb_spec (Z.of_nat (List.length b)) 10) as [E | E]; [lia |].
    reflexivity.
Qed.

(** C4: the handler answers 400 exactly when the header value does not
    decode or decodes to other than 10 bytes; otherwise it hands the request
    to the wrapped handler exactly when the little-endian code in the first
    eight decoded bytes is the previous, current or next slot, and answers
    401 exactly when it is none of them. *)
Theorem IsValid_outcomes (s : Server.t) (r : Request) :
  let h := Header_Get r (Server.hKey s) in
  (Server.IsValid_handler s r = Some (WriteHeader StatusBadRequest)
   <-> malformed h) /\
  (~ malformed h ->
   exists b code,
     Base32.DecodeString h = Some b /\ List.length b = 10%nat /\
     LittleEndian.Uint64 (firstn 8 b) = Some code /\
     code = le_value b /\
     (Server.IsValid_handler s r = Some (ServeHTTP_next r)
      <-> live (Server.pk s) code) /\
     (Server.IsValid_handler s r = Some (WriteHeader StatusUnauthorized)
      <-> ~ live (Server.pk s) code)) /\
  StatusBadRequest <> StatusUnauthorized.
Proof.
  intros h.
  pose proof (IsValid_handler_cases s r) as Hc. fold h in Hc.
  unfold malformed, live, StatusBadRequest, StatusUnauthorized in *.
  destruct (Base32.DecodeString h) as [b |].
  - destruct (Nat.eqb_spec (List.length b) 10) as [Hl | Hl].
    + destruct Hc as (code & Hu & Hv & Hh). rewrite Hh.
      set (B := (code =? current (Server.pk s))
                || (code =? next (Server.pk s))
                || (code =? previous (Server.pk s))).
      assert (Hlive :
        B = true <->
        (code = previous (Server.pk s) \/ code = current (Server.pk s)
         \/ code = next (Server.pk s))).
      { unfold B. rewrite !orb_true_iff, !Z.eqb_eq. tauto. }
      split; [| split; [| discriminate]].
      * split; [destruct B; discriminate | tauto].
      * intros _. exists b, code.
        split; [reflexivity |]. split; [exact Hl |].
        split; [exact Hu |]. split; [exact Hv |].
        destruct B.
        -- split; split.
           ++ intros _. apply Hlive. reflexivity.
           ++ reflexivity.
           ++ discriminate.
           ++ intros Hn. exfalso. apply Hn, Hlive. reflexivity.
        -- assert (Hnl : ~ (code = previous (Server.pk s)
                            \/ code = current (Server.pk s)
                            \/ code = next (Server.pk s))).
           { intros Hx. apply Hlive in Hx. discriminate Hx. }
           split; split.
           ++ discriminate.
           ++ intros Hx. contradiction.
           ++ intros _. exact Hnl.
           ++ reflexivity.
    + rewrite Hc. split; [tauto |]. split; [tauto | discriminate].
  - rewrite Hc. split; [tauto |]. split; [tauto | discriminate].
Qed.

Lemma IsValid_outcomes_witness :
  let s := Server.mk example_started "token" in
  let r := mkRequest (fun _ => "AEAAAAAAAAAAAAAA"%string) in
  ~ malformed (Header_Get r (Server.hKey s)) /\
  Server.IsValid_handler s r = Some (WriteHeader StatusUnauthorized).
Proof.
  intros s r.
  assert (Hm : ~ malformed (Header_Get r (Server.hKey s)))
    by (vm_compute; intros H; apply H; reflexivity).
  split; [exact Hm |].
  destruct (IsValid_outcomes s r) as (_ & Hok & _).
  destruct (Hok Hm) as (b & code & Hd & _ & _ & Hv & _ & H401).
  apply H401.
  vm_compute in Hd. injection Hd as <-. subst code.
  clear. vm_compute. intros [H | [H | H]]; discriminate H.
Defined.

(* ================================================================== *)
(** * Start *)

Lemma failover_keeps (pk : PassKey) (rnd : list Z) :
  interval (failover pk rnd) = interval pk /\
  cnp (failover pk rnd) = cnp pk.
Proof.
  unfold failover. destruct (bytes_eqb _ _); split; reflexivity.
Qed.

(** What [Start] leaves when it returns. *)
Lemma Start_inv (pk : PassKey) (rnd : list Z) (t0 t1 : Z) (p : PassKey)
    (out : list string) :
  Start pk rnd t0 t1 = Some (p, out) ->
  0 < interval p /\
  interval p = (if interval pk =? 0 then GoTime.Minute else interval pk) /\
  secret p = (if bytes_eqb (firstn 20 (secret pk)) zero20
              then copy (secret pk) rnd else secret pk) /\
  derive (secret p) (interval p) 0 t0 = Some (current p) /\
  derive (secret p) (interval p) 1 t1 = Some (next p) /\
  previous p = previous pk.
Proof.
  unfold Start.
  set (pk1 := if interval pk =? 0 then Interval pk None else pk).
  assert (H1 : interval pk1
               = (if interval pk =? 0 then GoTime.Minute else interval pk)
               /\ secret pk1 = secret pk /\ cnp pk1 = cnp pk).
  { unfold pk1. destruct (interval pk =? 0); repeat split. }
  destruct H1 as (Hi1 & Hs1 & Hc1).
  set (pk2 := failover pk1 rnd).
  destruct (failover_keeps pk1 rnd) as (Hi2 & Hc2). fold pk2 in Hi2, Hc2.
  assert (Hs2 : secret pk2
                = (if bytes_eqb (firstn 20 (secret pk)) zero20
                   then copy (secret pk) rnd else secret pk)).
  { unfold pk2, failover. rewrite Hs1.
    destruct (bytes_eqb _ _); cbn; rewrite ?Hs1; reflexivity. }
  destruct (generate_slot pk2 0 t0 ltac:(lia)) as (c0 & Hd0 & Hg0).
  rewrite Hg0. cbn [Z.eqb].
  set (pk3 := with_cnp pk2 _).
  destruct (generate_slot pk3 1 t1 ltac:(lia)) as (c1 & Hd1 & Hg1).
  rewrite Hg1. cbn [Z.eqb Pos.eqb].
  set (pk4 := with_cnp pk3 _).
  change (interval pk4) with (interval pk2).
  destruct (Z.leb_spec (interval pk2) 0) as [Hle | Hgt]; [discriminate |].
  intros H. injection H as <- _.
  change (interval pk4) with (interval pk2).
  change (secret pk4) with (secret pk2).
  change (current pk4) with c0. change (next pk4) with c1.
  change (previous pk4) with (cell2 (cnp pk2)).
  split; [exact Hgt |]. split; [rewrite Hi2; exact Hi1 |].
  split; [exact Hs2 |]. split; [exact Hd0 |]. split; [exact Hd1 |].
  rewrite Hc2, Hc1. reflexivity.
Qed.

Lemma Start_total (pk : PassKey) (rnd : list Z) (t0 t1 : Z) :
  0 <= interval pk -> exists p out, Start pk rnd t0 t1 = Some (p, out).
Proof.
  intros Hi. unfold Start.
  set (pk1 := if interval pk =? 0 then Interval pk None else pk).
  assert (H1 : 0 < interval pk1).
  { unfold pk1. destruct (Z.eqb_spec (interval pk) 0); [reflexivity | lia]. }
  set (pk2 := failover pk1 rnd).
  destruct (failover_keeps pk1 rnd) as (Hi2 & _). fold pk2 in Hi2.
  destruct (generate_slot pk2 0 t0 ltac:(lia)) as (c0 & _ & Hg0).
  rewrite Hg0.
  set (pk3 := with_cnp pk2 _).
  destruct (generate_slot pk3 1 t1 ltac:(lia)) as (c1 & _ & Hg1).
  rewrite Hg1.
  set (pk4 := with_cnp pk3 _).
  change (interval pk4) with (interval pk2).
  destruct (Z.leb_spec (interval pk2) 0) as [Hle | Hgt]; [lia |].
  eexists. eexists. reflexivity.
Qed.

(** [time.NewTicker] stops [Start] on a negative interval. *)
Lemma Start_negative_interval (pk : PassKey) (rnd : list Z) (t0 t1 : Z) :
  interval pk < 0 -> Start pk rnd t0 t1 = None.
Proof.
  intros Hi.
  destruct (Start pk rnd t0 t1) as [[p out] |] eqn:E; [| reflexivity].
  destruct (Start_inv _ _ _ _ _ _ E) as (Hp & He & _).
  destruct (Z.eqb_spec (interval pk) 0); lia.
Qed.

(** C5: started on a fresh window with any secret and any interval that is
    not negative, [Start] returns with the current slot holding the code
    [generate(0)] derives and the next slot the code [generate(1)] derives,
    each for the bucket of its own clock reading, and with the previous
    slot still zero. *)
Theorem Start_cold_window (pk : PassKey) (rnd : list Z) (t0 t1 : Z) :
  cnp pk = mkArray3 0 0 0 -> 0 <= interval pk ->
  exists p out,
    Start pk rnd t0 t1 = Some (p, out) /\
    derive (secret p) (interval p) 0 t0 = Some (current p) /\
    derive (secret p) (interval p) 1 t1 = Some (next p) /\
    previous p = 0 /\
    interval p = (if interval pk =? 0 then GoTime.Minute else interval pk) /\
    secret p = secret (failover pk rnd).
Proof.
  intros Hc Hi.
  destruct (Start_total pk rnd t0 t1 Hi) as (p & out & Hs).
  exists p, out. split; [exact Hs |].
  destruct (Start_inv _ _ _ _ _ _ Hs) as (_ & Hd & Hk & H0 & H1 & Hp).
  repeat split; try assumption.
  - rewrite Hp. unfold previous. rewrite Hc. reflexivity.
  - rewrite Hk. unfold failover. destruct (bytes_eqb _ _); reflexivity.
Qed.

Lemma Start_cold_window_witness :
  (cnp example_pk = mkArray3 0 0 0 /\ 0 <= interval example_pk) /\
  exists p out,
    Start example_pk zero20 example_now example_now = Some (p, out) /\
    current p = 4799645867104616598 /\
    next p = 8644107498317547602 /\
    previous p = 0.
Proof.
  assert (H1 : cnp example_pk = mkArray3 0 0 0) by reflexivity.
  assert (H2 : 0 <= interval example_pk) by (vm_compute; discriminate).
  split; [split; assumption |].
  destruct (Start_cold_window example_pk zero20 example_now example_now H1 H2)
    as (p & out & Hs & Hc & Hn & Hp & Hi & Hk).
  exists p, out. split; [exact Hs |].
  rewrite Hk, Hi in Hc, Hn.
  assert (Hc' : derive (secret (failover example_pk zero20))
                  (if interval example_pk =? 0 then GoTime.Minute
                   else interval example_pk) 0 example_now
                = Some 4799645867104616598) by (vm_compute; reflexivity).
  assert (Hn' : derive (secret (failover example_pk zero20))
                  (if interval example_pk =? 0 then GoTime.Minute
                   else interval example_pk) 1 example_now
                = Some 8644107498317547602) by (vm_compute; reflexivity).
  rewrite Hc' in Hc. rewrite Hn' in Hn.
  injection Hc as Hc. injection Hn as Hn.
  split; [symmetry; exact Hc |]. split; [symmetry; exact Hn | exact Hp].
Defined.

(** C9: after [Start] on a fresh window and before any firing the previous
    slot is 0 and is compared like the other two: a request whose header
    decodes to 10 bytes, the first eight all zero, is handed to the wrapped
    handler, whatever codes were derived. *)
Theorem cold_start_accepts_zero_code (pk : PassKey) (rnd : list Z)
    (t0 t1 : Z) (p : PassKey) (out : list string) (hkey : string)
    (r : Request) (b : list Z) :
  cnp pk = mkArray3 0 0 0 ->
  Start pk rnd t0 t1 = Some (p, out) ->
  Base32.DecodeString (Header_Get r hkey) = Some b ->
  List.length b = 10%nat ->
  firstn 8 b = repeat 0 8 ->
  previous p = 0 /\
  Server.IsValid_handler (Server.mk p hkey) r = Some (ServeHTTP_next r).
Proof.
  intros Hc Hs Hd Hl Hz.
  destruct (Start_inv _ _ _ _ _ _ Hs) as (_ & _ & _ & _ & _ & Hp).
  assert (Hp0 : previous p = 0).
  { rewrite Hp. unfold previous. rewrite Hc. reflexivity. }
  split; [exact Hp0 |].
  pose proof (IsValid_handler_cases (Server.mk p hkey) r) as Hh.
  cbn [Server.hKey Server.pk] in Hh. rewrite Hd, Hl in Hh.
  cbn [Nat.eqb] in Hh.
  destruct Hh as (code & Hu & _ & Hh).
  rewrite Hz in Hu. cbn in Hu. injection Hu as <-.
  rewrite Hh, Hp0.
  rewrite Z.eqb_refl, orb_true_r. reflexivity.
Qed.

Lemma cold_start_accepts_zero_code_witness :
  exists p r,
    Start example_pk zero20 example_now example_now = Some (p, []) /\
    current p <> 0 /\ next p <> 0 /\
    Header_Get r "token" = "AAAAAAAAAAAAAAAA"%string /\
    Server.IsValid_handler (Server.mk p "token") r = Some (ServeHTTP_next r).
Proof.
  destruct (Start example_pk zero20 example_now example_now)
    as [[p out] |] eqn:Hs; [| vm_compute in Hs; discriminate Hs].
  pose (r := mkRequest (fun _ => "AAAAAAAAAAAAAAAA"%string)).
  exists p, r.
  assert (H1 : cnp example_pk = mkArray3 0 0 0) by reflexivity.
  assert (H2 : Base32.DecodeString (Header_Get r "token")
               = Some (repeat 0 10)) by reflexivity.
  assert (H3 : List.length (repeat 0 10) = 10%nat) by reflexivity.
  assert (H4 : firstn 8 (repeat 0 10) = repeat 0 8) by reflexivity.
  destruct (cold_start_accepts_zero_code example_pk zero20 example_now
              example_now p out "token" r (repeat 0 10) H1 Hs H2 H3 H4)
    as (_ & Hok).
  vm_compute in Hs. injection Hs as <- <-.
  split; [reflexivity |].
  split; [vm_compute; discriminate |].
  split; [vm_compute; discriminate |].
  split; [reflexivity | exact Hok].
Defined.

(* ================================================================== *)
(** * Secret *)

(** C10: [Secret] returns nil exactly for a 32-character string that does
    not decode, and then leaves the receiver as it was; a string of another
    length and a value of another type leave the secret unchanged and return
    the receiver; a [[20]byte] is copied and the receiver returned. *)
Theorem Secret_returns (pk : PassKey) (a : SecretArg) :
  (snd (Secret pk a) = Nil <->
   exists v, a = SecretString v /\ len v = 32
             /\ Base32.DecodeString v = None) /\
  (snd (Secret pk a) = Nil -> fst (Secret pk a) = pk) /\
  (forall v, a = SecretString v -> len v <> 32 ->
             Secret pk a = (pk, Receiver)) /\
  (a = SecretOther -> Secret pk a = (pk, Receiver)) /\
  (forall v, a = SecretBytes v ->
             List.length v = 20%nat -> List.length (secret pk) = 20%nat ->
             Secret pk a = (with_secret pk v, Receiver)).
Proof.
  split; [| split; [| split; [| split]]].
  - split.
    + destruct a as [v | v |]; cbn [Secret]; try discriminate.
      destruct (Z.eqb_spec (len v) 32) as [E | E]; [| discriminate].
      destruct (Base32.DecodeString v) as [b |] eqn:Hd.
      * cbn. discriminate.
      * intros _. exists v. repeat split; assumption.
    + intros (v & -> & Hl & Hd). cbn [Secret].
      rewrite Hl, Hd. reflexivity.
  - destruct a as [v | v |]; cbn [Secret]; try discriminate.
    destruct (len v =? 32); [| discriminate].
    destruct (Base32.DecodeString v); [cbn; discriminate | reflexivity].
  - intros v -> Hl. cbn [Secret].
    destruct (Z.eqb_spec (len v) 32); [contradiction | reflexivity].
  - intros ->. reflexivity.
  - intros v -> Hv Hs. cbn [Secret]. unfold copy.
    replace (List.length (secret pk)) with (List.length v) by lia.
    rewrite firstn_all.
    replace (List.length v) with (List.length (secret pk)) by lia.
    rewrite skipn_all, app_nil_r. reflexivity.
Qed.

Lemma Secret_returns_witness :
  snd (Secret zeroPassKey (SecretString "PASSKEYXXBASE32XXSECRETXXEXAMPL1"))
  = Nil /\
  Secret zeroPassKey (SecretString "PASSKEY") = (zeroPassKey, Receiver) /\
  Secret zeroPassKey (SecretBytes (repeat 7 20))
  = (with_secret zeroPassKey (repeat 7 20), Receiver).
Proof.
  split; [| split].
  - apply (proj2 (proj1 (Secret_returns zeroPassKey _))).
    eexists. repeat split.
  - apply (proj1 (proj2 (proj2 (Secret_returns zeroPassKey _))) "PASSKEY"%string).
    + reflexivity.
    + vm_compute. discriminate.
  - apply (proj2 (proj2 (proj2 (proj2 (Secret_returns zeroPassKey _))))
             (repeat 7 20)); reflexivity.
Defined.

(* ================================================================== *)
(** * The window over time *)

Lemma derive_same_bucket (key : list Z) (d i t j u : Z) :
  bucket d i t = bucket d j u -> derive key d i t = derive key d j u.
Proof. unfold derive. intros ->. reflexivity. Qed.

(** The code of slot index 1 for a clock shifted by [j] intervals hashes
    the boundary of [t0] shifted by [j] intervals. *)
Lemma bucket1_shift (d t0 j : Z) :
  0 < d ->
  bucket d 1 (t0 + j * d) = u64 (GoTime.Unix (GoTime.Round t0 d + j * d)).
Proof.
  intros Hd. unfold bucket, GoTime.Add. cbn [Z.sub Z.add Z.opp Z.pos_sub].
  change (i64 (i64 0 * d)) with 0. rewrite Z.add_0_r.
  rewrite Round_shift_mul by exact Hd. reflexivity.
Qed.

Lemma bucket0_shift (d t : Z) :
  0 < d < 2 ^ 63 ->
  bucket d 0 t = u64 (GoTime.Unix (GoTime.Round t d + -1 * d)).
Proof.
  intros Hd. rewrite bucket_value by lia.
  replace (t + (0 - 1) * d) with (t + -1 * d) by lia.
  rewrite Round_shift_mul by lia. reflexivity.
Qed.

(** The slots after [k] firings: the codes of the boundaries [k], [k - 1]
    and [k - 2] intervals after that of the start. *)
Lemma ticks_window (p : PassKey) (t0 : Z) (k : nat) :
  0 < interval p < 2 ^ 63 ->
  derive (secret p) (interval p) 0 t0 = Some (current p) ->
  derive (secret p) (interval p) 1 t0 = Some (next p) ->
  let C j := derive (secret p) (interval p) 1 (t0 + j * interval p) in
  exists q,
    ticks p t0 k = Some q /\
    secret q = secret p /\ interval q = interval p /\
    C (Z.of_nat k) = Some (next q) /\
    C (Z.of_nat k - 1) = Some (current q) /\
    ((1 <= k)%nat -> C (Z.of_nat k - 2) = Some (previous q)).
Proof.
  intros Hd Hc Hn C.
  induction k as [| k IH].
  - exists p. split; [reflexivity |]. split; [reflexivity |].
    split; [reflexivity |]. unfold C. cbn [Z.of_nat].
    split; [| split].
    + rewrite Z.mul_0_l, Z.add_0_r. exact Hn.
    + rewrite <- Hc. apply derive_same_bucket.
      rewrite bucket1_shift, bucket0_shift by lia. reflexivity.
    + lia.
  - destruct IH as (q & Ht & Hs & Hi & Hnx & Hcu & Hpr).
    cbn [ticks]. rewrite Ht.
    destruct (tick_value q (t0 + Z.of_nat (S k) * interval q))
      as (code & Hcode & Htick).
    rewrite Htick. eexists. split; [reflexivity |].
    cbn [secret interval with_cnp next current previous cnp cell0 cell1 cell2].
    split; [exact Hs |]. split; [exact Hi |].
    rewrite Hs, Hi in Hcode.
    split; [exact Hcode |].
    split.
    + replace (Z.of_nat (S k) - 1) with (Z.of_nat k) by lia. exact Hnx.
    + intros _. replace (Z.of_nat (S k) - 2) with (Z.of_nat k - 1) by lia.
      exact Hcu.
Qed.

(** A request whose header carries the credential of a live code is handed
    to the wrapped handler. *)
Lemma handler_accepts_live (s : Server.t) (r : Request) (code : Z)
    (rnd : list Z) :
  Header_Get r (Server.hKey s)
  = Base32.EncodeToString (credential code rnd) ->
  0 <= code < 2 ^ 64 -> List.length rnd = 2%nat -> Forall is_byte rnd ->
  live (Server.pk s) code ->
  Server.IsValid_handler s r = Some (ServeHTTP_next r).
Proof.
  intros Hh Hc Hl Hr Hlive.
  destruct (credential_decodes code rnd Hc Hl Hr)
    as (b & Hd & Hlen & _ & Hu).
  pose proof (IsValid_handler_cases s r) as Hcases.
  rewrite Hh, Hd, Hlen in Hcases. cbn [Nat.eqb] in Hcases.
  destruct Hcases as (code' & Hu' & _ & Hres).
  rewrite slice_in_range in Hu by lia.
  change (Z.to_nat (8 - 0)) with 8%nat in Hu.
  change (Z.to_nat 0) with 0%nat in Hu. cbn [skipn] in Hu.
  rewrite Hu in Hu'. injection Hu' as <-.
  rewrite Hres.
  assert (Hb : (code =? current (Server.pk s))
               || (code =? next (Server.pk s))
               || (code =? previous (Server.pk s)) = true).
  { rewrite !orb_true_iff, !Z.eqb_eq. unfold live in Hlive. tauto. }
  rewrite Hb. reflexivity.
Qed.

Lemma validates_live (q : PassKey) (code : Z) (rnd : list Z) :
  0 <= code < 2 ^ 64 -> List.length rnd = 2%nat -> Forall is_byte rnd ->
  live q code -> validates q code rnd.
Proof.
  intros Hc Hl Hr Hlive. unfold validates.
  apply (handler_accepts_live (Server.mk q "token") _ code rnd);
    try assumption.
  reflexivity.
Qed.

(** The header [Client.SetHeader] writes passes the validator when client
    and server use the same header key and the client's current code is
    live in the server's window. *)
Lemma SetHeader_IsValid (c : Client.t) (s : Server.t) (rnd : list Z)
    (req : Request) :
  Client.hKey c = Server.hKey s ->
  0 <= current (Client.pk c) < 2 ^ 64 ->
  List.length rnd = 2%nat -> Forall is_byte rnd ->
  live (Server.pk s) (current (Client.pk c)) ->
  Server.IsValid_handler s (Client.SetHeader c rnd req)
  = Some (ServeHTTP_next (Client.SetHeader c rnd req)).
Proof.
  intros Hk Hc Hl Hr Hlive.
  apply (handler_accepts_live s _ (current (Client.pk c)) rnd);
    try assumption.
  rewrite <- Hk. apply SetHeader_sends_current.
Qed.

(** C6 as stated fails: in the example session started at [example_now], a
    code derived one second later is already let through half a second
    after the start, before the time it was derived for: it is the code the
    next slot holds. *)
Lemma code_accepted_before_its_time :
  ~ (forall pk rnd0 t0 p out t u code q rnd,
       Start pk rnd0 t0 t0 = Some (p, out) ->
       t0 <= t -> t0 <= u ->
       derive (secret p) (interval p) 0 t = Some code ->
       session_at p t0 u = Some q ->
       List.length rnd = 2%nat -> Forall is_byte rnd ->
       (t <= u < t + 2 * interval p -> validates q code rnd) /\
       (u < t \/ t + 2 * interval p <= u -> ~ validates q code rnd)).
Proof.
  intros H.
  pose (t0 := example_now).
  pose (t := example_now + GoTime.Second).
  pose (u := example_now + GoTime.Second / 2).
  destruct (Start example_pk zero20 t0 t0) as [[p out] |] eqn:Hs;
    [| vm_compute in Hs; discriminate Hs].
  destruct (derive (secret p) (interval p) 0 t) as [code |] eqn:Hc;
    [| vm_compute in Hs; injection Hs as <- <-;
       vm_compute in Hc; discriminate Hc].
  destruct (session_at p t0 u) as [q |] eqn:Hq;
    [| vm_compute in Hs; injection Hs as <- <-;
       vm_compute in Hq; discriminate Hq].
  assert (Hr : Forall is_byte [0; 0])
    by (repeat constructor; unfold is_byte; lia).
  destruct (H example_pk zero20 t0 p out t u code q [0; 0] Hs
              ltac:(vm_compute; discriminate) ltac:(vm_compute; discriminate)
              Hc Hq eq_refl Hr) as (_ & Hno).
  apply Hno; [left; reflexivity |].
  vm_compute in Hs. injection Hs as <- <-.
  vm_compute in Hc. injection Hc as <-.
  vm_compute in Hq. injection Hq as <-.
  vm_compute. reflexivity.
Qed.

(** Nor is the whole of two intervals covered: with the start exactly
    halfway between two boundaries, a code derived half a second later is
    turned away 29.6 seconds after it was derived, the interval being 15
    seconds. *)
Lemma code_rejected_within_two_intervals :
  let t0 := example_now + 11 * GoTime.Second / 2 in
  let t := t0 + GoTime.Second / 2 in
  let u := t + 296 * GoTime.Second / 10 in
  exists p out code q,
    Start example_pk zero20 t0 t0 = Some (p, out) /\
    derive (secret p) (interval p) 0 t = Some code /\
    session_at p t0 u = Some q /\
    t <= u < t + 2 * interval p /\
    ~ validates q code [0; 0].
Proof.
  intros t0 t u.
  destruct (Start example_pk zero20 t0 t0) as [[p out] |] eqn:Hs;
    [| vm_compute in Hs; discriminate Hs].
  destruct (derive (secret p) (interval p) 0 t) as [code |] eqn:Hc;
    [| vm_compute in Hs; injection Hs as <- <-;
       vm_compute in Hc; discriminate Hc].
  destruct (session_at p t0 u) as [q |] eqn:Hq;
    [| vm_compute in Hs; injection Hs as <- <-;
       vm_compute in Hq; discriminate Hq].
  exists p, out, code, q.
  vm_compute in Hs. injection Hs as <- <-.
  vm_compute in Hc. injection Hc as <-.
  vm_compute in Hq. injection Hq as <-.
  split; [reflexivity |]. split; [reflexivity |]. split; [reflexivity |].
  split; [vm_compute; split; congruence |].
  intros Hv. vm_compute in Hv. discriminate Hv.
Qed.

(** C6 (amended): in a session started no later than [t] whose ticker fires
    every interval, the code [generate(0)] derives at time [t] is let
    through at every time from [t] to [t + interval]. *)
Theorem code_validates_for_one_interval (pk : PassKey) (rnd0 : list Z)
    (t0 : Z) (p : PassKey) (out : list string) (t u : Z) (rnd : list Z) :
  Start pk rnd0 t0 t0 = Some (p, out) ->
  interval p < 2 ^ 63 ->
  t0 <= t -> t <= u <= t + interval p ->
  List.length rnd = 2%nat -> Forall is_byte rnd ->
  exists code q,
    derive (secret p) (interval p) 0 t = Some code /\
    session_at p t0 u = Some q /\
    validates q code rnd.
Proof.
  intros Hs Hd63 Ht0 Htu Hl Hr.
  destruct (Start_inv _ _ _ _ _ _ Hs) as (Hd & _ & _ & Hcur & Hnxt & _).
  set (d := interval p) in *. set (key := secret p) in *.
  destruct (derive_total key d 0 t) as (code & Hcode & Hrange).
  set (K := (u - t0) / d).
  assert (HK : 0 <= K) by (apply Z.div_pos; lia).
  assert (HKu : K * d <= u - t0 < (K + 1) * d).
  { pose proof (Z.div_mod (u - t0) d ltac:(lia)).
    pose proof (Z.mod_pos_bound (u - t0) d Hd). fold K in H. nia. }
  destruct (ticks_window p t0 (Z.to_nat K) ltac:(fold d; lia) Hcur Hnxt)
    as (q & Hq & _ & _ & Hn & Hc & Hp).
  fold d key in Hn, Hc, Hp. rewrite Z2Nat.id in Hn, Hc, Hp by exact HK.
  exists code, q. split; [exact Hcode |].
  split; [unfold session_at; fold d K; exact Hq |].
  apply validates_live; try assumption.
  (* the boundary of [t] is [m] intervals after that of the start *)
  set (e := GoTime.unixToInternal * GoTime.Second).
  destruct (Round_nearest t d Hd) as (Hmt & _).
  destruct (Round_nearest t0 d Hd) as (Hm0 & _).
  fold e in Hmt, Hm0.
  apply Z.div_exact in Hmt; [| lia]. apply Z.div_exact in Hm0; [| lia].
  set (m := (GoTime.Round t d + e) / d - (GoTime.Round t0 d + e) / d).
  assert (Hm : GoTime.Round t d = GoTime.Round t0 d + m * d)
    by (unfold m; lia).
  assert (Hm_lo : 0 <= m).
  { pose proof (Round_mono t0 t d Hd Ht0). nia. }
  assert (Hm_hi : m <= K + 1).
  { pose proof (Round_mono t (t0 + (K + 1) * d) d Hd ltac:(lia)) as Hle.
    rewrite Round_shift_mul in Hle by exact Hd. nia. }
  assert (Hm_lo' : K - 1 <= m).
  { pose proof (Round_mono (t0 + (K - 1) * d) t d Hd ltac:(lia)) as Hle.
    rewrite Round_shift_mul in Hle by exact Hd. nia. }
  assert (Hcm : derive key d 0 t = derive key d 1 (t0 + (m - 1) * d)).
  { apply derive_same_bucket.
    rewrite bucket0_shift, bucket1_shift by lia.
    do 2 f_equal. lia. }
  rewrite Hcode in Hcm.
  unfold live.
  assert (Hcase : m - 1 = K \/ m - 1 = K - 1 \/ (m - 1 = K - 2 /\ 1 <= K))
    by lia.
  destruct Hcase as [E | [E | [E HK1]]]; rewrite E in Hcm.
  - right. right. congruence.
  - right. left. congruence.
  - left. rewrite Hp in Hcm by lia. congruence.
Qed.

Lemma code_validates_for_one_interval_witness :
  exists p out q,
    Start example_pk zero20 example_now example_now = Some (p, out) /\
    interval p < 2 ^ 63 /\
    session_at p example_now (example_now + 29 * GoTime.Second) = Some q /\
    validates q 8644107498317547602 [0x12; 0x34].
Proof.
  destruct (Start example_pk zero20 example_now example_now)
    as [[p out] |] eqn:Hs; [| vm_compute in Hs; discriminate Hs].
  assert (Hd : interval p < 2 ^ 63)
    by (vm_compute in Hs; injection Hs as <- <-; reflexivity).
  assert (Hr : Forall is_byte [0x12; 0x34])
    by (repeat constructor; unfold is_byte; lia).
  destruct (code_validates_for_one_interval example_pk zero20 example_now
              p out (example_now + 14 * GoTime.Second)
              (example_now + 29 * GoTime.Second) [0x12; 0x34] Hs Hd
              ltac:(vm_compute; discriminate)
              ltac:(vm_compute in Hs; injection Hs as <- <-;
                    vm_compute; split; discriminate)
              eq_refl Hr)
    as (code & q & Hc & Hq & Hv).
  exists p, out, q.
  split; [reflexivity |]. split; [exact Hd |]. split; [exact Hq |].
  assert (Hcode : code = 8644107498317547602).
  { vm_compute in Hs. injection Hs as <- <-.
    vm_compute in Hc. injection Hc as <-. reflexivity. }
  rewrite <- Hcode. exact Hv.
Defined.
